(** * patterns-cli: the slm build command (bin/slm.js)

    A shallow embedding of the template build command: the include engine,
    the template and markdown compilers, the writer, the tree walker and the
    change router of the watcher, with the properties of the written
    specification stated and settled against them.

    JavaScript strings are modelled as [string]: sequences of code units
    below 256.  The file system, the objects passed as locals and the console
    are explicit state.  The template engine, the markdown renderer, the
    beautifier and the built-in objects of the platform are collaborators the
    command is parametrised over. *)

From Stdlib Require Import Ascii String ZArith Lia.
From stdpp Require Import base option list strings gmap pretty.

Local Open Scope char_scope.

(** ** JavaScript string primitives *)

Module Js.

(** The class [\s] (and the characters [trim] removes). *)
Definition is_space (c : ascii) : bool :=
  match c with
  | "009" | "010" | "011" | "012" | "013" | " " | "160" => true
  | _ => false
  end.

Definition in_range (lo hi c : ascii) : bool :=
  (nat_of_ascii lo <=? nat_of_ascii c)%nat && (nat_of_ascii c <=? nat_of_ascii hi)%nat.

(** The class [\w]. *)
Definition is_word (c : ascii) : bool :=
  in_range "a" "z" c || in_range "A" "Z" c || in_range "0" "9" c
  || Ascii.eqb c "_".

Fixpoint starts_with (p s : string) : bool :=
  match p, s with
  | EmptyString, _ => true
  | String a p', String b s' => Ascii.eqb a b && starts_with p' s'
  | String _ _, EmptyString => false
  end.

Fixpoint drop (n : nat) (s : string) : string :=
  match n, s with
  | O, _ => s
  | S n', String _ s' => drop n' s'
  | S _, EmptyString => EmptyString
  end.

(** [s.includes(sub)] *)
Fixpoint includes (s sub : string) : bool :=
  starts_with sub s
  || match s with
     | EmptyString => false
     | String _ s' => includes s' sub
     end.

(** The text before and after the first occurrence of [pat] in [s]. *)
Fixpoint find_first (pat s : string) : option (string * string) :=
  if starts_with pat s then Some (EmptyString, drop (String.length pat) s)
  else match s with
       | EmptyString => None
       | String c s' =>
           match find_first pat s' with
           | Some (b, a) => Some (String c b, a)
           | None => None
           end
       end.

(** GetSubstitution for a string pattern: no captures, so only [$$], [$&],
    [$`] and [$'] are special; any other [$] stands for itself. *)
Fixpoint get_substitution (matched before after rep : string) : string :=
  match rep with
  | EmptyString => EmptyString
  | String "$" (String c r) =>
      if Ascii.eqb c "$" then String "$" (get_substitution matched before after r)
      else if Ascii.eqb c "&" then matched +:+ get_substitution matched before after r
      else if Ascii.eqb c "`" then before +:+ get_substitution matched before after r
      else if Ascii.eqb c "'" then after +:+ get_substitution matched before after r
      else String "$" (String c (get_substitution matched before after r))
  | String c r => String c (get_substitution matched before after r)
  end.

(** [s.replace(pat, rep)] with a string pattern: the first occurrence only,
    the replacement read as a replacement pattern. *)
Definition replace (s pat rep : string) : string :=
  match find_first pat s with
  | None => s
  | Some (b, a) => b +:+ get_substitution pat b a rep +:+ a
  end.

(** What a purely textual substitution of the first occurrence would give. *)
Definition replace_literal (s pat rep : string) : string :=
  match find_first pat s with
  | None => s
  | Some (b, a) => b +:+ rep +:+ a
  end.

Fixpoint trim_start (s : string) : string :=
  match s with
  | String c s' => if is_space c then trim_start s' else s
  | EmptyString => EmptyString
  end.

Fixpoint trim_end (s : string) : string :=
  match s with
  | EmptyString => EmptyString
  | String c s' =>
      match trim_end s' with
      | EmptyString => if is_space c then EmptyString else String c EmptyString
      | t => String c t
      end
  end.

Definition trim (s : string) : string := trim_end (trim_start s).

(** [s.split(sep)] for a one-character separator. *)
Fixpoint split (sep : ascii) (s : string) : list string :=
  match s with
  | EmptyString => [EmptyString]
  | String c s' =>
      if Ascii.eqb c sep then EmptyString :: split sep s'
      else match split sep s' with
           | x :: xs => String c x :: xs
           | [] => [String c EmptyString]
           end
  end.

(** The longest prefix whose characters satisfy [p], and the rest. *)
Fixpoint span (p : ascii -> bool) (s : string) : string * string :=
  match s with
  | String c s' =>
      if p c then let '(a, b) := span p s' in (String c a, b)
      else (EmptyString, s)
  | EmptyString => (EmptyString, EmptyString)
  end.

(** A match of [open \s* [cls]+ \s* }}] anchored at the start of [s].  The
    classes are disjoint from [\s] and hold no brace, so the greedy reading
    is the only one. *)
Definition match_token (open : string) (cls : ascii -> bool) (s : string)
  : option string :=
  if starts_with open s then
    let '(w1, s2) := span is_space (drop (String.length open) s) in
    let '(body, s3) := span cls s2 in
    match body with
    | EmptyString => None
    | _ =>
        let '(w2, s4) := span is_space s3 in
        if starts_with "}}" s4
        then Some (open +:+ w1 +:+ body +:+ w2 +:+ "}}")%string
        else None
    end
  else None.

(** [s.match(/.../g)]: every match, left to right, not overlapping.  [skip]
    counts the characters of the last match still to step over. *)
Fixpoint match_all_go (open : string) (cls : ascii -> bool) (skip : nat)
    (s : string) : list string :=
  match s with
  | EmptyString => []
  | String _ s' =>
      match skip with
      | S k => match_all_go open cls k s'
      | O =>
          match match_token open cls s with
          | Some m => m :: match_all_go open cls (String.length m - 1) s'
          | None => match_all_go open cls 0 s'
          end
      end
  end.

Definition match_all (open : string) (cls : ascii -> bool) (s : string)
  : list string :=
  match_all_go open cls 0 s.

End Js.

Local Open Scope string_scope.

Example includes_ex : Js.includes "notes.slm.bak" ".slm" = true.
Proof. reflexivity. Qed.

Example replace_ex1 : Js.replace "a{{ x }}b{{ x }}" "{{ x }}" "Q$&$$" = "aQ{{ x }}$b{{ x }}".
Proof. reflexivity. Qed.

Example trim_ex : Js.trim "  a b  " = "a b".
Proof. reflexivity. Qed.

Example split_ex : Js.split "." "a.b." = ["a"; "b"; ""].
Proof. reflexivity. Qed.

(** ** The path module of the platform (POSIX flavour) *)

Module Path.

Definition is_slash (c : ascii) : bool := Ascii.eqb c "/"%char.
Definition not_slash (c : ascii) : bool := negb (is_slash c).

Fixpoint rev_app (s acc : string) : string :=
  match s with
  | EmptyString => acc
  | String c s' => rev_app s' (String c acc)
  end.
Definition rev (s : string) : string := rev_app s EmptyString.

Definition ends_with (s suffix : string) : bool :=
  Js.starts_with (rev suffix) (rev s).

(** [path] cut into what precedes its last component, that component, and
    the slashes that trail it. *)
Definition last_component (path : string) : string * string * string :=
  let '(slashes, r1) := Js.span is_slash (rev path) in
  let '(comp, head) := Js.span not_slash r1 in
  (rev head, rev comp, slashes).

(** [path.dirname(p)] *)
Definition dirname (p : string) : string :=
  match p with
  | EmptyString => "."
  | String c0 tail =>
      let hasRoot := is_slash c0 in
      let '(_, r1) := Js.span is_slash (rev tail) in
      let '(_, r2) := Js.span not_slash r1 in
      match r2 with
      | EmptyString => if hasRoot then "/" else "."
      | String _ before =>
          match before with
          | EmptyString => if hasRoot then "//" else String c0 EmptyString
          | _ => String c0 (rev before)
          end
      end
  end.

(** [path.basename(p)] *)
Definition basename1 (p : string) : string :=
  let '(_, comp, _) := last_component p in comp.

(** [path.basename(p, suffix)].  The suffix is taken off the last component
    when it ends that component without being all of it; as in the
    platform's scan, a component that is only a tail of the suffix comes
    back with the slashes that trail it. *)
Definition basename (p suffix : string) : string :=
  let '(_, comp, slashes) := last_component p in
  if negb (String.eqb suffix "") && (String.length suffix <=? String.length p)%nat then
    if String.eqb suffix p then ""
    else if ends_with comp suffix then
      if String.eqb comp suffix then comp
      else rev (Js.drop (String.length suffix) (rev comp))
    else if ends_with suffix comp then comp +:+ slashes
    else comp
  else comp.

(** The index-free reading of [path.extname(p)]: the text from the last dot
    of the last component, unless that dot opens the component or the
    component is [..]. *)
Definition extname (p : string) : string :=
  let '(_, comp, _) := last_component p in
  let '(ext_rev, before_rev) := Js.span (fun c => negb (Ascii.eqb c "."%char)) (rev comp) in
  match before_rev with
  | EmptyString => ""                        (* no dot at all *)
  | String _ EmptyString => ""               (* the dot opens the component *)
  | String _ _ =>
      if String.eqb comp ".." then "" else String "."%char (rev ext_rev)
  end.

(** normalizeString: resolve [.] and [..] segments; [stack] is reversed. *)
Fixpoint normalize_segments (allowAboveRoot : bool) (segs stack : list string)
  : list string :=
  match segs with
  | [] => List.rev stack
  | seg :: segs' =>
      if String.eqb seg "" || String.eqb seg "." then
        normalize_segments allowAboveRoot segs' stack
      else if String.eqb seg ".." then
        match stack with
        | top :: below =>
            if String.eqb top ".." then
              normalize_segments allowAboveRoot segs'
                (if allowAboveRoot then ".." :: stack else stack)
            else normalize_segments allowAboveRoot segs' below
        | [] =>
            normalize_segments allowAboveRoot segs'
              (if allowAboveRoot then [".."] else [])
        end
      else normalize_segments allowAboveRoot segs' (seg :: stack)
  end.

Fixpoint concat_with (sep : string) (parts : list string) : string :=
  match parts with
  | [] => ""
  | [x] => x
  | x :: rest => x +:+ sep +:+ concat_with sep rest
  end.

(** [path.normalize(p)] *)
Definition normalize (p : string) : string :=
  match p with
  | EmptyString => "."
  | String c0 _ =>
      let isAbsolute := is_slash c0 in
      let trailingSeparator := Js.starts_with "/" (rev p) in
      let body :=
        concat_with "/" (normalize_segments (negb isAbsolute) (Js.split "/"%char p) []) in
      match body with
      | EmptyString =>
          if isAbsolute then "/" else if trailingSeparator then "./" else "."
      | _ =>
          let body' := if trailingSeparator then body +:+ "/" else body in
          if isAbsolute then "/" +:+ body' else body'
      end
  end.

(** [path.join(...parts)] *)
Definition join (parts : list string) : string :=
  match List.filter (fun s => negb (String.eqb s "")) parts with
  | [] => "."
  | ps => normalize (concat_with "/" ps)
  end.

End Path.

(** The platform's documented examples. *)
Example dirname_ex :
  List.map Path.dirname ["/foo/bar/baz/asdf/quux"; "a/b/"; "a//b"; "a"; "/a"; "//a"; "/"; ""; "a/b/c.slm"]
  = ["/foo/bar/baz/asdf"; "a"; "a/"; "."; "/"; "//"; "/"; "."; "a/b"].
Proof. reflexivity. Qed.

Example basename_ex :
  List.map (fun '(p, s) => Path.basename p s)
    [("/foo/bar/quux.html", ".html"); (".js", ".js"); ("js", ".js"); ("file.js", ".ts");
     ("file.js.old", ".js.old"); ("aaa/bbb", "/bbb"); ("aaa/bbb", "a/bbb");
     ("aaa/bbb", "bbb"); ("aaa/bbb//", "bbb"); ("aaa/bbb", "bb"); ("aaa/bbb", "b");
     ("a", "a"); ("home.slm", ".slm"); ("x/.slm", ".slm"); ("home.slm.bak", ".slm")]
  = ["quux"; ""; "js"; "file.js"; "file"; "bbb"; "bbb"; "bbb"; "bbb"; "b"; "bb"; "";
     "home"; ".slm"; "home.slm.bak"].
Proof. reflexivity. Qed.

Example basename1_ex :
  List.map Path.basename1 ["/dir/basename.ext"; "basename.ext//"; "/aaa/"; "//a"; ""; "/"; "views/home"]
  = ["basename.ext"; "basename.ext"; "aaa"; "a"; ""; ""; "home"].
Proof. reflexivity. Qed.

Example extname_ex :
  List.map Path.extname ["index.html"; "index.coffee.md"; "index."; "index"; ".index";
                         ".index.md"; ".."; "a/b.d/c"; "a.b/"; "..."; "x/..a"]
  = [".html"; ".md"; "."; ""; ""; ".md"; ""; ""; ".b"; "."; ".a"].
Proof. reflexivity. Qed.

Example join_ex :
  List.map Path.join [["/foo"; "bar"; "baz/asdf"; "quux"; ".."]; ["a"; ""; "b"]; ["src"; "/**/*.md"];
                      []; ["a"; "../../b"]; ["/a"; "../../b"]; ["a/"; "b/"]; ["src/views"; "home.slm"]]
  = ["/foo/bar/baz/asdf"; "a/b"; "src/**/*.md"; "."; "../b"; "/b"; "a/b/"; "src/views/home.slm"].
Proof. reflexivity. Qed.

(** ** Values, objects and the state of a run *)

(** What a configuration holds and what reading it gives.  [VObj] is a
    plain object, with its own properties; [VNum] is an integer.  [VNative]
    stands for any other object: a function, an array, a built-in reached
    through a prototype.  It is known by a name only; what its members are,
    how it prints and what calling it gives is for the platform to say. *)
#[warnings="-register-all"]
Inductive value : Type :=
| VUndefined
| VNull
| VBool (b : bool)
| VNum (n : Z)
| VStr (s : string)
| VObj (fields : gmap string value)
| VNative (name : string).

(** What a locals object holds: data, or the include function itself. *)
Inductive lvalue : Type :=
| Data (v : value)
| IncludeFn.

Abbreviation obj := (gmap string lvalue).
Abbreviation loc := positive.

(** The integers a number holds exactly and prints digit for digit. *)
Definition max_safe_integer : Z := 2 ^ 53 - 1.

(** ToString, where the value alone settles it.  It does not for a number
    beyond the safe integers (printed rounded, or with an exponent), for a
    plain object with a [toString] property of its own (printing goes through
    that property) and for the other objects. *)
Definition to_string (v : value) : option string :=
  match v with
  | VUndefined => Some "undefined"
  | VNull => Some "null"
  | VBool true => Some "true"
  | VBool false => Some "false"
  | VNum n => if (Z.abs n <=? max_safe_integer)%Z then Some (pretty n) else None
  | VStr s => Some s
  | VObj fields =>
      match fields !! "toString" with
      | None => Some "[object Object]"
      | Some _ => None
      end
  | VNative _ => None
  end.

(** ToBoolean *)
Definition truthy (v : value) : bool :=
  match v with
  | VUndefined | VNull => false
  | VBool b => b
  | VNum n => negb (n =? 0)%Z
  | VStr s => negb (String.eqb s "")
  | VObj _ | VNative _ => true
  end.

(** How a computation ends: with a value, with a thrown error, or, in the
    model only, by exhausting the budget given to the recursion of [walk]. *)
Inductive outcome (A : Type) : Type :=
| Ok (a : A)
| Throw (err : string)
| OutOfFuel.
Arguments Ok {A} a.
Arguments Throw {A} err.
Arguments OutOfFuel {A}.

(** How an operation of the platform answers: with a result, or by
    throwing. *)
Inductive answer (A : Type) : Type :=
| Returns (a : A)
| Throws (err : string).
Arguments Returns {A} a.
Arguments Throws {A} err.

Definition of_answer {A} (r : answer A) : outcome A :=
  match r with
  | Returns a => Ok a
  | Throws err => Throw err
  end.

(** The platform's side of the values:
    - [member v k] is [v[k]] where [k] is no property of [v]'s own data: what
      the prototype chain of [v] holds under [k], or the member [k] of a
      native object;
    - [is_callable name] tells whether the native object is a function;
    - [call_replacer name matched position whole] is the text of what the
      function returns when [String.prototype.replace] calls it;
    - [print v] is ToString of a value that [to_string] leaves open. *)
Record platform_t : Type := Platform {
  member : value -> string -> answer value;
  is_callable : string -> bool;
  call_replacer : string -> string -> nat -> string -> answer string;
  print : value -> answer string
}.

(** The properties of [Object.prototype], which every plain object
    inherits. *)
Definition object_prototype_keys : list string :=
  ["constructor"; "__defineGetter__"; "__defineSetter__"; "hasOwnProperty";
   "__lookupGetter__"; "__lookupSetter__"; "isPrototypeOf"; "propertyIsEnumerable";
   "toString"; "valueOf"; "__proto__"; "toLocaleString"].

Definition inherited_key (k : string) : bool :=
  existsb (String.eqb k) object_prototype_keys.

Definition char_at (s : string) (i : nat) : value :=
  match String.get i s with
  | Some c => VStr (String c "")
  | None => VUndefined
  end.

(** [v[k]]: reading a property of [undefined] or [null] throws.  A plain
    object answers with its own property; without one, with what it inherits
    from [Object.prototype] when [k] names a property of that, and with
    [undefined] otherwise.  A string has its length and its characters. *)
Definition get_prop (platform : platform_t) (v : value) (k : string) : outcome value :=
  match v with
  | VUndefined => Throw ("TypeError: Cannot read properties of undefined (reading '" +:+ k +:+ "')")
  | VNull => Throw ("TypeError: Cannot read properties of null (reading '" +:+ k +:+ "')")
  | VObj fields =>
      match fields !! k with
      | Some v' => Ok v'
      | None => if inherited_key k then of_answer (member platform v k) else Ok VUndefined
      end
  | VStr s =>
      if String.eqb k "length" then Ok (VNum (Z.of_nat (String.length s)))
      else match List.find (fun i => String.eqb (pretty i) k) (seq 0 (String.length s)) with
           | Some i => Ok (char_at s i)
           | None => of_answer (member platform v k)
           end
  | VBool _ | VNum _ | VNative _ => of_answer (member platform v k)
  end.

(** ToString *)
Definition to_text (platform : platform_t) (v : value) : outcome string :=
  match to_string v with
  | Some text => Ok text
  | None => of_answer (print platform v)
  end.

(** [data.replace(element, v)] for a string [element].  A function is
    called for the text that replaces the first occurrence; any other value
    is printed first, and its text read as a replacement pattern. *)
Definition replace_value (platform : platform_t) (data element : string) (v : value)
  : outcome string :=
  let functionalReplace :=
    match v with
    | VNative name => if is_callable platform name then Some name else None
    | _ => None
    end in
  match functionalReplace with
  | Some name =>
      match Js.find_first element data with
      | None => Ok data
      | Some (preceding, following) =>
          match call_replacer platform name element (String.length preceding) data with
          | Returns replacement => Ok (preceding +:+ replacement +:+ following)
          | Throws err => Throw err
          end
      end
  | None =>
      match to_text platform v with
      | Ok replaceValue => Ok (Js.replace data element replaceValue)
      | Throw err => Throw err
      | OutOfFuel => OutOfFuel
      end
  end.

Inductive node : Type :=
| File (content : string)
| Dir (entries : list string).

(** What the console module and the audit are asked to report. *)
Inductive log_entry : Type :=
| LogError (origin err : string)
| LogNotify (extname : string)
| LogDescribe (file dist : string)
| LogWatching (message : string)
| LogSuccess
| Audit (dist : value).

Record world : Type := World {
  fs : gmap string node;
  heap : gmap loc obj;
  console : list log_entry
}.

Definition M (A : Type) : Type := world -> outcome A * world.

Global Instance M_ret : MRet M := fun A a w => (Ok a, w).
Global Instance M_bind : MBind M := fun A B f m w =>
  match m w with
  | (Ok a, w') => f a w'
  | (Throw e, w') => (Throw e, w')
  | (OutOfFuel, w') => (OutOfFuel, w')
  end.

Definition throw {A} (err : string) : M A := fun w => (Throw err, w).
Definition out_of_fuel {A} : M A := fun w => (OutOfFuel, w).
Definition lift {A} (o : outcome A) : M A := fun w => (o, w).

(** [try { body } catch (err) { handler }] *)
Definition try_catch {A} (body : M A) (handler : string -> M A) : M A := fun w =>
  match body w with
  | (Throw e, w') => handler e w'
  | r => r
  end.

Definition log (e : log_entry) : M unit := fun w =>
  (Ok tt, World (fs w) (heap w) (console w ++ [e])).

(** *** The file system *)

Definition existsSync (p : string) : M bool := fun w =>
  (Ok (bool_decide (is_Some (fs w !! p))), w).

Definition readFileSync (p : string) : M string := fun w =>
  match fs w !! p with
  | Some (File c) => (Ok c, w)
  | Some (Dir _) => (Throw ("EISDIR: illegal operation on a directory, read '" +:+ p +:+ "'"), w)
  | None => (Throw ("ENOENT: no such file or directory, open '" +:+ p +:+ "'"), w)
  end.

Definition readdirSync (p : string) : M (list string) := fun w =>
  match fs w !! p with
  | Some (Dir es) => (Ok es, w)
  | Some (File _) => (Throw ("ENOTDIR: not a directory, scandir '" +:+ p +:+ "'"), w)
  | None => (Throw ("ENOENT: no such file or directory, scandir '" +:+ p +:+ "'"), w)
  end.

(** Enter [name] in the listing of directory [parent]. *)
Definition add_entry (parent name : string) (files : gmap string node)
  : gmap string node :=
  match files !! parent with
  | Some (Dir es) =>
      if bool_decide (name ∈ es) then files else <[parent := Dir (es ++ [name])]> files
  | _ => files
  end.

Definition set_fs (files : gmap string node) : M unit := fun w =>
  (Ok tt, World files (heap w) (console w)).

(** A directory is made inside an existing directory only: no recursive
    creation. *)
Definition mkdirSync (p : string) : M unit := fun w =>
  match fs w !! p, fs w !! Path.dirname p with
  | Some _, _ => (Throw ("EEXIST: file already exists, mkdir '" +:+ p +:+ "'"), w)
  | None, Some (Dir _) =>
      set_fs (<[p := Dir []]> (add_entry (Path.dirname p) (Path.basename1 p) (fs w))) w
  | None, _ => (Throw ("ENOENT: no such file or directory, mkdir '" +:+ p +:+ "'"), w)
  end.

(** Data that is not a string is refused by the platform. *)
Definition writeFileSync (p : string) (data : value) : M unit := fun w =>
  match data with
  | VStr s =>
      match fs w !! p, fs w !! Path.dirname p with
      | Some (Dir _), _ =>
          (Throw ("EISDIR: illegal operation on a directory, open '" +:+ p +:+ "'"), w)
      | _, Some (Dir _) =>
          set_fs (<[p := File s]> (add_entry (Path.dirname p) (Path.basename1 p) (fs w))) w
      | _, _ => (Throw ("ENOENT: no such file or directory, open '" +:+ p +:+ "'"), w)
      end
  | _ => (Throw "TypeError [ERR_INVALID_ARG_TYPE]: The data argument must be of type string", w)
  end.

(** *** Objects *)

(** A new empty object: the default [locals = {}]. *)
Definition alloc : M loc := fun w =>
  let l := fresh (dom (heap w)) in
  (Ok l, World (fs w) (<[l := ∅]> (heap w)) (console w)).

Definition default_locals (locals : option loc) : M loc :=
  match locals with
  | Some l => mret l
  | None => alloc
  end.

Definition read_obj (l : loc) : M obj := fun w =>
  (Ok (default ∅ (heap w !! l)), w).

Definition update_obj (l : loc) (f : obj -> obj) : M unit := fun w =>
  (Ok tt, World (fs w) (<[l := f (default ∅ (heap w !! l))]> (heap w)) (console w)).

(** [Object.assign(target, source)]: the target object itself is updated;
    on a shared key the source's value replaces the target's. *)
Definition object_assign (target : loc) (source : gmap string value) : M unit :=
  update_obj target (fun o => (Data <$> source) ∪ o).

(** [target[key] = v] *)
Definition set_prop (target : loc) (key : string) (v : lvalue) : M unit :=
  update_obj target (fun o => <[key := v]> o).


Global Arguments existsSync : simpl never.
Global Arguments readFileSync : simpl never.
Global Arguments readdirSync : simpl never.
Global Arguments mkdirSync : simpl never.
Global Arguments writeFileSync : simpl never.
Global Arguments alloc : simpl never.
Global Arguments read_obj : simpl never.
Global Arguments update_obj : simpl never.
Global Arguments object_assign : simpl never.
Global Arguments set_prop : simpl never.
Global Arguments log : simpl never.

(** ** The build command *)

(** What a template does when it is rendered: it ends with html, fails, or
    calls the [include] it finds in its locals and goes on with the result.
    The call passes no locals, an object of its own making, or the very object
    the template was rendered with. *)
Inductive include_arg : Type :=
| NoLocals
| FreshLocals (o : obj)
| OwnLocals.

Inductive template : Type :=
| Html (html : string)
| Raise (err : string)
| CallInclude (ref : string) (arg : include_arg) (k : value -> template).

Record options_t : Type := Options {
  opt_config : gmap string value;
  opt_source : string;
  opt_dist : string;
  opt_base_path : string;
  opt_views : string;
  opt_ext : string
}.

(** The character classes of the two micro-syntaxes of markdown. *)
Definition include_path_char (c : ascii) : bool :=
  Ascii.eqb c "-"%char || Ascii.eqb c "@"%char || Ascii.eqb c "/"%char
  || Js.is_word c || Ascii.eqb c "."%char.

Definition variable_char (c : ascii) : bool :=
  Js.is_word c || Ascii.eqb c "."%char || Ascii.eqb c "-"%char || Ascii.eqb c "_"%char.

Section Slm.

(** [global.base], [global.src], [global.dist] and [global.entry.views]. *)
Variables global_base global_src global_dist global_views : string.
(** The object [resolve('config/slm', true, false)] reads. *)
Variable config : gmap string value.
(** The built-in objects of the platform. *)
Variable platform : platform_t.
(** The collaborators: the template engine, the markdown renderer (given
    [config.marked]) and the beautifier (given [config.beautify]). *)
Variable slm : string -> string -> string -> obj -> template.
Variable marked : value -> string -> string.
Variable beautify : value -> value -> string.
(** [args.nopa11y], [args.watch], and whether [NODE_ENV] is [development]. *)
Variables nopa11y watch development : bool.

(** The watch globs are left out: no operation below reads them. *)
Definition options : options_t :=
  let source := Path.join [global_base; global_src] in
  let base_path := source in
  let ext := ".slm" in
  {| opt_config := config;
     opt_source := source;
     opt_dist := Path.join [global_base; global_dist];
     opt_base_path := base_path;
     opt_views := Path.join [base_path; global_views];
     opt_ext := ext |}.

Definition config_prop (opts : options_t) (key : string) : value :=
  default VUndefined (opt_config opts !! key).

(** [write(file, data)] *)
Definition write (file : string) (data : value) : M value :=
  try_catch
    (let opts := options in
     let dist := Js.replace (Js.replace file (opt_ext opts) ".html")
                            (opt_views opts) (opt_dist opts) in
     present ← existsSync (Path.dirname dist);
     (if negb present then mkdirSync (Path.dirname dist) else mret tt);;
     let data :=
       if truthy (config_prop opts "beautify")
       then VStr (beautify (config_prop opts "beautify") data)
       else data in
     writeFileSync dist data;;
     log (LogDescribe file dist);;
     mret (VStr dist))
    (fun err => log (LogError "write" err);; mret VUndefined).

(** The loop [while (variable.length) obj = obj[variable.shift()]]. *)
Fixpoint walk_path (o : value) (variable : list string) : outcome value :=
  match variable with
  | [] => Ok o
  | key :: rest =>
      match get_prop platform o key with
      | Ok o' => walk_path o' rest
      | Throw e => Throw e
      | OutOfFuel => OutOfFuel
      end
  end.

(** The path [file] holds for the directive [element]. *)
Definition include_file (element : string) : string :=
  Js.trim (Js.replace (Js.replace element "include{{" "") "}}" "").

(** The keys [variable] holds for the token [element]. *)
Definition variable_path (element : string) : list string :=
  Js.split "."%char
    (Js.trim (Js.replace (Js.replace (Js.replace element "{{" "") "}}" "") "this." "")).

(** One round of [blocks.forEach] in [mrkdwn.vars]. *)
Definition vars_step (data element : string) : M string :=
  if Js.includes element "this." then
    let variable := variable_path element in
    o ← lift (walk_path (VObj (opt_config options)) variable);
    lift (replace_value platform data element o)
  else mret data.

Fixpoint for_each {A B} (f : A -> B -> M A) (a : A) (l : list B) : M A :=
  match l with
  | [] => mret a
  | b :: l' => a' ← f a b; for_each f a' l'
  end.

(** [mrkdwn.vars(data)] *)
Definition mrkdwn_vars (data : string) : M string :=
  let blocks := Js.match_all "{{" variable_char data in
  for_each vars_step data blocks.

Section WithInclude.

(** The functions below call [include], which is defined after them. *)
Variable include : string -> option loc -> M value.

(** One round of [blocks.forEach] in [mrkdwn.slm]. *)
Definition slm_step (data element : string) : M string :=
  let file := include_file element in
  compiled ← include file None;
  lift (replace_value platform data element compiled).

(** [mrkdwn.slm(data)] *)
Definition mrkdwn_slm (data : string) : M string :=
  let blocks := Js.match_all "include{{" include_path_char data in
  for_each slm_step data blocks.

(** The rendering of a template whose locals are the object at [own]. *)
Fixpoint render (own : loc) (t : template) : M string :=
  match t with
  | Html html => mret html
  | Raise err => throw err
  | CallInclude ref arg k =>
      locals ← match arg with
               | NoLocals => mret None
               | FreshLocals o => l ← alloc; update_obj l (fun _ => o);; mret (Some l)
               | OwnLocals => mret (Some own)
               end;
      v ← include ref locals;
      render own (k v)
  end.

(** [compile.slm(file, locals)] *)
Definition compile_slm (file : string) (locals : option loc) : M value :=
  locals ← default_locals locals;
  try_catch
    (present ← existsSync file;
     if negb present then mret (VStr "")
     else
       src ← readFileSync file;
       let opts := options in
       object_assign locals (opt_config opts);;
       set_prop locals "include" IncludeFn;;
       o ← read_obj locals;
       data ← render locals (slm src file (opt_base_path opts) o);
       let data :=
         if truthy (config_prop opts "beautify")
         then beautify (config_prop opts "beautify") (VStr data)
         else data in
       mret (VStr data))
    (fun err => log (LogError "compile.slm" err);; mret VUndefined).

(** [compile.md(file, locals)] *)
Definition compile_md (file : string) (locals : option loc) : M value :=
  _ ← default_locals locals;
  try_catch
    (present ← existsSync file;
     if negb present then mret (VStr "")
     else
       md ← readFileSync file;
       let md := marked (config_prop options "marked") md in
       md ← mrkdwn_slm md;
       md ← mrkdwn_vars md;
       mret (VStr md))
    (fun err => log (LogError "compile.md" err);; mret VUndefined).

(** [compile.default(file, locals)] *)
Definition compile_default (file : string) (locals : option loc) : M value :=
  _ ← default_locals locals;
  try_catch
    (present ← existsSync file;
     if negb present then mret (VStr "")
     else src ← readFileSync file; mret (VStr src))
    (fun err => log (LogError "compile.default" err);; mret VUndefined).

(** The body of [include(file, locals)]. *)
Definition include_body (file : string) (locals : option loc) : M value :=
  locals ← default_locals locals;
  let extname := Path.extname file in
  let opts := options in
  let '(extname, file) :=
    if String.eqb extname "" then (opt_ext opts, file +:+ opt_ext opts)
    else (extname, file) in
  let handler := Js.replace extname "." "" in
  let dir := opt_source opts in
  let file := Path.join [dir; file] in
  if String.eqb handler "slm" then compile_slm file (Some locals)
  else if String.eqb handler "md" then compile_md file (Some locals)
  else if String.eqb handler "default" then compile_default file (Some locals)
  else
    data ← compile_default file (Some locals);
    log (LogNotify extname);;
    mret data.

End WithInclude.

(** What the platform throws when a call finds the call stack full. *)
Definition stack_exhausted : string := "RangeError: Maximum call stack size exceeded".

(** [include]: [fuel] is the depth of includes within includes the call stack
    has room for.  Nothing in the command bounds that depth; the call that
    goes past it throws. *)
Fixpoint include (fuel : nat) (file : string) (locals : option loc) : M value :=
  match fuel with
  | O => throw stack_exhausted
  | S fuel' => include_body (include fuel') file locals
  end.

(** [main(file)] *)
Definition main (fuel : nat) (file : string) : M value :=
  if Js.includes file (opt_ext options) then
    compiled ← compile_slm (include fuel) file None;
    dist ← write file compiled;
    (if negb nopa11y then log (Audit dist) else mret tt);;
    mret dist
  else mret VUndefined.

(** The loop [for (let i = files.length - 1; i >= 0; i--)]. *)
Fixpoint for_each_reversed {B} (f : B -> M unit) (l : list B) : M unit :=
  match l with
  | [] => mret tt
  | b :: l' => for_each_reversed f l';; f b
  end.

(** [walk(file, dir)]: [fuel] bounds the depth of the tree walked, and is the
    room the call stack has for the includes of each file compiled. *)
Fixpoint walk (fuel : nat) (file : string) (dir : option string) : M unit :=
  match fuel with
  | O => out_of_fuel
  | S fuel' =>
      let opts := options in
      let dir := match dir with
                 | Some d => if String.eqb d "" then opt_views opts else d
                 | None => opt_views opts
                 end in
      let file := if Js.includes file dir then file else Path.join [dir; file] in
      if Js.includes file (opt_ext opts) then
        _ ← main fuel' file; mret tt
      else
        try_catch
          (files ← readdirSync file;
           for_each_reversed (fun child => walk fuel' child (Some file)) files)
          (fun err => log (LogError "walk" err))
  end.

(** The watcher's change handler of [run], for the views and the views
    directory [run] read when it started.  [owns] is the test [views.some]
    applies to each view. *)
Definition owns (opts : options_t) (dir changed view : string) : bool :=
  let pttrn := Path.basename view (opt_ext opts) in
  Js.includes (Path.dirname changed) pttrn
  && negb (Js.includes (Path.dirname changed) dir).

Definition hasView (opts : options_t) (views : list string) (dir changed : string) : bool :=
  existsb (owns opts dir changed) views.

Definition inViews (dir changed : string) : bool := Js.includes changed dir.

(** The file the handler hands to [main]. *)
Definition changed_target (opts : options_t) (views : list string) (dir changed : string)
  : string :=
  let pttrn := Path.basename1 (Path.dirname changed) in
  let view := Path.join [dir; pttrn +:+ opt_ext opts] in
  if hasView opts views dir changed then view else changed.

(** The handler [watcher.on('change', ...)] installs. *)
Definition on_change (fuel : nat) (views : list string) (dir changed : string) : M unit :=
  let opts := options in
  if development then
    let has := hasView opts views dir changed in
    let inside := inViews dir changed in
    log (LogWatching ("Detected change on " +:+ changed));;
    let changed := changed_target opts views dir changed in
    if has || inside then _ ← main fuel changed; mret tt
    else walk fuel dir None
  else walk fuel dir None.

(** How [run] ends: the process exits, or the watcher is left installed with
    the views and the views directory the handler will use, or, after a
    failure, [run] just returns. *)
Inductive run_end : Type :=
| Exited
| Watching (views : list string) (dir : string)
| Returned.

(** [run()] *)
Definition run (fuel : nat) : M run_end :=
  try_catch
    (let opts := options in
     let dir := opt_views opts in
     present ← existsSync dir;
     if negb present then
       log (LogWatching ("Slm skipping. " +:+ dir +:+ " directory does not exist."));;
       mret Exited
     else
       files ← readdirSync dir;
       let views := List.filter (fun view => Js.includes view (opt_ext opts)) files in
       if watch then
         log (LogWatching "Slm watching");;
         mret (Watching views dir)
       else
         walk fuel dir None;;
         log LogSuccess;;
         mret Exited)
    (fun err => log (LogError "run" err);; mret Returned).

(** A change event, once [run] has left the watcher installed. *)
Definition on_watch (fuel : nat) (state : run_end) (changed : string) : M unit :=
  match state with
  | Watching views dir => on_change fuel views dir changed
  | _ => mret tt
  end.

(** ** Facts about the string primitives *)

Definition occurs_in (sub s : string) : Prop :=
  exists before after, s = before +:+ sub +:+ after.

Lemma app_cons c s t : String c s +:+ t = String c (s +:+ t).
Proof. reflexivity. Qed.

Lemma app_empty_l t : "" +:+ t = t.
Proof. reflexivity. Qed.

Lemma app_empty_r s : s +:+ "" = s.
Proof. induction s as [|c s IH]; [done|]. by rewrite app_cons, IH. Qed.

Lemma app_assoc s t u : (s +:+ t) +:+ u = s +:+ t +:+ u.
Proof. induction s as [|c s IH]; [done|]. by rewrite !app_cons, IH. Qed.

Lemma app_length s t : String.length (s +:+ t) = String.length s + String.length t.
Proof. induction s as [|c s IH]; [done|]. rewrite app_cons. simpl. by rewrite IH. Qed.

Lemma starts_with_spec p s : Js.starts_with p s = true <-> exists t, s = p +:+ t.
Proof.
  revert s. induction p as [|a p IH]; intros s; simpl.
  - split; [by exists s | done].
  - destruct s as [|b s].
    + split; [done | by intros [t Ht]].
    + rewrite andb_true_iff, Ascii.eqb_eq, IH. split.
      * intros [-> [t ->]]. by exists t.
      * intros [t Ht]. rewrite app_cons in Ht. injection Ht as -> ->. eauto.
Qed.

Lemma starts_with_app p t : Js.starts_with p (p +:+ t) = true.
Proof. apply starts_with_spec. by exists t. Qed.

Lemma drop_app p t : Js.drop (String.length p) (p +:+ t) = t.
Proof. induction p as [|a p IH]; [by destruct t | done]. Qed.

Lemma includes_spec s sub : Js.includes s sub = true <-> occurs_in sub s.
Proof.
  unfold occurs_in. induction s as [|c s IH]; simpl.
  - rewrite orb_false_r, starts_with_spec. split.
    + intros [t Ht]. by exists "", t.
    + intros (a & b & Hab). destruct a; [by exists b | done].
  - rewrite orb_true_iff, starts_with_spec, IH. split.
    + intros [[t Ht] | (a & b & ->)].
      * by exists "", t.
      * by exists (String c a), b.
    + intros (a & b & Hab). destruct a as [|c' a].
      * left. by exists b.
      * right. rewrite app_cons in Hab. injection Hab as -> ->. by exists a, b.
Qed.

Lemma starts_with_drop pat s :
  Js.starts_with pat s = true -> s = pat +:+ Js.drop (String.length pat) s.
Proof.
  intros [t ->]%starts_with_spec. by rewrite drop_app.
Qed.

Lemma find_first_spec pat s b a :
  Js.find_first pat s = Some (b, a) -> s = b +:+ pat +:+ a.
Proof.
  revert b. induction s as [|c s IH]; intros b; simpl.
  - destruct (Js.starts_with pat "") eqn:Hp; [|done].
    intros [= <- <-]. by apply starts_with_drop.
  - destruct (Js.starts_with pat (String c s)) eqn:Hp.
    + intros [= <- <-]. by apply starts_with_drop.
    + destruct (Js.find_first pat s) as [[b' a']|]; [|done].
      intros [= <- <-]. rewrite app_cons. f_equal. by apply IH.
Qed.

Lemma find_first_none pat s :
  Js.find_first pat s = None <-> Js.includes s pat = false.
Proof.
  induction s as [|c s IH]; simpl.
  - destruct (Js.starts_with pat ""); simpl; split; congruence.
  - destruct (Js.starts_with pat (String c s)); simpl; [split; congruence|].
    rewrite <- IH. destruct (Js.find_first pat s) as [[??]|]; split; congruence.
Qed.

Lemma replace_absent s pat rep : Js.includes s pat = false -> Js.replace s pat rep = s.
Proof. intros H. unfold Js.replace. by apply find_first_none in H as ->. Qed.

(** *** Tokens *)

Fixpoint has_char (c : ascii) (s : string) : bool :=
  match s with
  | EmptyString => false
  | String a s' => Ascii.eqb a c || has_char c s'
  end.



Lemma has_char_app c s t : has_char c (s +:+ t) = has_char c s || has_char c t.
Proof.
  induction s as [|a s IH]; [done|]. rewrite app_cons. simpl.
  by rewrite IH, orb_assoc.
Qed.


Lemma span_app p s a b : Js.span p s = (a, b) -> s = a +:+ b.
Proof.
  revert a b. induction s as [|c s IH]; intros a b; simpl.
  - by intros [= <- <-].
  - destruct (p c).
    + destruct (Js.span p s) as [a' b'] eqn:E. intros [= <- <-].
      rewrite app_cons. f_equal. by apply IH.
    + by intros [= <- <-].
Qed.




Lemma match_all_go_in open cls skip s m :
  In m (Js.match_all_go open cls skip s) ->
  exists before rest, s = before +:+ rest /\ Js.match_token open cls rest = Some m.
Proof.
  revert skip. induction s as [|c s IH]; intros skip; simpl; [done|].
  assert (forall k, In m (Js.match_all_go open cls k s) ->
            exists before rest,
              String c s = before +:+ rest /\ Js.match_token open cls rest = Some m)
    as Hlater.
  { intros k (before & rest & -> & Hm)%IH. by exists (String c before), rest. }
  destruct skip as [|k]; [|by apply Hlater].
  destruct (Js.match_token open cls (String c s)) as [m'|] eqn:E; [|by apply Hlater].
  intros [<-|Hin]; [|by eapply Hlater].
  by exists "", (String c s).
Qed.









(** *** Replacement patterns *)

(** A replacement with no dollar sign in it stands for itself. *)
Lemma get_substitution_plain matched before after rep :
  has_char "$"%char rep = false ->
  Js.get_substitution matched before after rep = rep.
Proof.
  induction rep as [|c rep IH]; [done|].
  intros [Hc Hrep]%orb_false_elim. specialize (IH Hrep).
  destruct c as [[] [] [] [] [] [] [] []]; try discriminate Hc;
    simpl; by rewrite IH.
Qed.

Lemma get_substitution_app matched before after l r :
  has_char "$"%char l = false ->
  Js.get_substitution matched before after (l +:+ r)
  = l +:+ Js.get_substitution matched before after r.
Proof.
  induction l as [|c l IH]; [done|].
  intros [Hc Hl]%orb_false_elim. specialize (IH Hl). rewrite app_cons.
  destruct c as [[] [] [] [] [] [] [] []]; try discriminate Hc;
    simpl; by rewrite IH.
Qed.

Lemma get_substitution_dollar matched before after r :
  Js.get_substitution matched before after (String "$"%char (String "$"%char r))
  = String "$"%char (Js.get_substitution matched before after r).
Proof. reflexivity. Qed.

Lemma get_substitution_matched matched before after r :
  Js.get_substitution matched before after (String "$"%char (String "&"%char r))
  = matched +:+ Js.get_substitution matched before after r.
Proof. reflexivity. Qed.

Lemma replace_plain s pat rep :
  has_char "$"%char rep = false -> Js.replace s pat rep = Js.replace_literal s pat rep.
Proof.
  intros H. unfold Js.replace, Js.replace_literal.
  destruct (Js.find_first pat s) as [[b a]|]; [|done].
  by rewrite get_substitution_plain.
Qed.

Lemma app_inj_l (s t u : string) : s +:+ t = s +:+ u -> t = u.
Proof. induction s as [|c s IH]; [done|]. rewrite !app_cons. intros [= H]. auto. Qed.

Lemma app_inj_r (s t u : string) : s +:+ u = t +:+ u -> s = t.
Proof.
  intros H. assert (String.length s = String.length t) as Hlen.
  { apply (f_equal String.length) in H. rewrite !app_length in H. lia. }
  revert t H Hlen. induction s as [|c s IH]; intros [|d t] H Hlen; try done.
  rewrite !app_cons in H. injection H as -> H. f_equal. apply IH; [done|].
  simpl in Hlen. lia.
Qed.

(** What a token pattern matches opens with the pattern's opening text and
    heads the text it was matched on. *)
Lemma match_token_prefix open cls s m :
  Js.match_token open cls s = Some m ->
  Js.starts_with open m = true /\ exists rest, s = m +:+ rest.
Proof.
  unfold Js.match_token.
  destruct (Js.starts_with open s) eqn:Hopen; [|done].
  apply starts_with_drop in Hopen.
  destruct (Js.span Js.is_space (Js.drop (String.length open) s)) as [w1 s2] eqn:E1.
  destruct (Js.span cls s2) as [body s3] eqn:E2.
  destruct body as [|c body]; [done|].
  destruct (Js.span Js.is_space s3) as [w2 s4] eqn:E3.
  destruct (Js.starts_with "}}" s4) eqn:Hclose; [|done].
  intros [= <-]. split; [apply starts_with_app|].
  apply starts_with_spec in Hclose as [rest Hrest]. exists rest.
  rewrite Hopen at 1. rewrite (span_app _ _ _ _ E1), (span_app _ _ _ _ E2),
    (span_app _ _ _ _ E3), Hrest. by rewrite !app_assoc.
Qed.

(** ** Properties of the build command *)

Lemma existsSync_absent p w : fs w !! p = None -> existsSync p w = (Ok false, w).
Proof.
  intros H. unfold existsSync. rewrite H.
  rewrite bool_decide_eq_false_2; [done | by intros [? ?]].
Qed.

Lemma existsSync_present p n w : fs w !! p = Some n -> existsSync p w = (Ok true, w).
Proof.
  intros H. unfold existsSync. rewrite H.
  rewrite bool_decide_eq_true_2; [done | by eexists].
Qed.

Ltac unfold_monad :=
  unfold try_catch, default_locals, mbind, M_bind, mret, M_ret, lift, throw;
  cbv beta iota.

(** C8. For a path with no file on disk, each registered compiler (template,
    markdown and raw passthrough) returns the empty string: nothing is thrown,
    nothing is reported on the console and the disk is left as it was. *)
Theorem compilers_missing_file_empty (inc : string -> option loc -> M value)
    (file : string) (locals : option loc) (w : world) :
  fs w !! file = None ->
  let quiet (r : outcome value * world) :=
    r.1 = Ok (VStr "") /\ fs r.2 = fs w /\ console r.2 = console w in
  quiet (compile_slm inc file locals w)
  /\ quiet (compile_md inc file locals w)
  /\ quiet (compile_default file locals w).
Proof.
  intros Hf quiet. unfold quiet, compile_slm, compile_md, compile_default.
  unfold_monad.
  destruct locals as [l|]; [|unfold alloc]; cbv beta iota;
    rewrite (existsSync_absent file) by done; done.
Qed.

(** The markdown compiler on a file that is there: render, then the include
    pass, then the variable pass. *)
Lemma compile_md_present inc file src locals w :
  fs w !! file = Some (File src) ->
  compile_md inc file (Some locals) w
  = try_catch
      (md ← mrkdwn_slm inc (marked (config_prop options "marked") src);
       md ← mrkdwn_vars md;
       mret (VStr md))
      (fun err => log (LogError "compile.md" err);; mret VUndefined) w.
Proof.
  intros Hf. unfold compile_md. unfold_monad.
  rewrite (existsSync_present file (File src)) by done.
  cbn [negb]. cbv beta iota. unfold readFileSync. rewrite Hf. done.
Qed.

(** The variable pass starts from what the include pass returned. *)
Lemma compile_md_after_includes inc file src locals w w1 included :
  fs w !! file = Some (File src) ->
  mrkdwn_slm inc (marked (config_prop options "marked") src) w = (Ok included, w1) ->
  compile_md inc file (Some locals) w
  = match mrkdwn_vars included w1 with
    | (Ok resolved, w2) => (Ok (VStr resolved), w2)
    | (Throw err, w2) =>
        (Ok VUndefined,
         World (fs w2) (heap w2) (console w2 ++ [LogError "compile.md" err]))
    | (OutOfFuel, w2) => (OutOfFuel, w2)
    end.
Proof.
  intros Hf Hslm. rewrite (compile_md_present _ _ src) by done.
  unfold_monad. rewrite Hslm.
  destruct (mrkdwn_vars included w1) as [[resolved|err|] w2]; done.
Qed.


Lemma walk_path_app o pre rest :
  walk_path o (pre ++ rest)
  = match walk_path o pre with
    | Ok o' => walk_path o' rest
    | Throw e => Throw e
    | OutOfFuel => OutOfFuel
    end.
Proof.
  revert o. induction pre as [|k pre IH]; intros o; simpl; [done|].
  destruct (get_prop platform o k); auto.
Qed.

Lemma of_answer_no_fuel {A} (r : answer A) : of_answer r <> OutOfFuel.
Proof. by destruct r. Qed.

Lemma get_prop_no_fuel o k : get_prop platform o k <> OutOfFuel.
Proof.
  destruct o; simpl; try done; try apply of_answer_no_fuel.
  - destruct (String.eqb k "length"); [done|].
    destruct (List.find _ _); [done | apply of_answer_no_fuel].
  - destruct (fields !! k); [done|].
    destruct (inherited_key k); [apply of_answer_no_fuel | done].
Qed.

Lemma walk_path_no_fuel o path : walk_path o path <> OutOfFuel.
Proof.
  revert o. induction path as [|k path IH]; intros o; simpl; [done|].
  destruct (get_prop platform o k) eqn:E; auto. by apply get_prop_no_fuel in E.
Qed.

Lemma to_text_no_fuel v : to_text platform v <> OutOfFuel.
Proof. unfold to_text. destruct (to_string v); [done | apply of_answer_no_fuel]. Qed.

Lemma replace_value_no_fuel data element v :
  replace_value platform data element v <> OutOfFuel.
Proof.
  unfold replace_value.
  assert (match to_text platform v with
          | Ok replaceValue => Ok (Js.replace data element replaceValue)
          | Throw err => Throw err
          | OutOfFuel => OutOfFuel
          end <> OutOfFuel) as Hpattern.
  { destruct (to_text platform v) eqn:E; try done. by apply to_text_no_fuel in E. }
  destruct v; try exact Hpattern.
  destruct (is_callable platform name); [|exact Hpattern].
  destruct (Js.find_first element data) as [[preceding following]|]; [|done].
  by destruct (call_replacer _ _ _ _ _).
Qed.

(** A value that prints by itself is put in as a replacement pattern. *)
Lemma replace_value_text data element v text :
  to_string v = Some text ->
  replace_value platform data element v = Ok (Js.replace data element text).
Proof.
  intros H. unfold replace_value, to_text. rewrite H. by destruct v.
Qed.

(** A path that reaches [undefined] with keys still to read throws. *)
Lemma walk_path_undefined_intermediate o pre key rest :
  walk_path o pre = Ok VUndefined ->
  exists err, walk_path o (pre ++ key :: rest) = Throw err.
Proof.
  intros H. rewrite walk_path_app, H. simpl. eauto.
Qed.

(** The variable pass reads and writes no state. *)
Lemma vars_step_pure data element w :
  exists r, vars_step data element w = (r, w) /\ r <> OutOfFuel.
Proof.
  unfold vars_step. destruct (Js.includes element "this."); [|by eexists].
  unfold_monad. destruct (walk_path _ _) eqn:E; [|by eexists|].
  - destruct (replace_value _ _ _ _) eqn:R; try by eexists.
    by apply replace_value_no_fuel in R.
  - by apply walk_path_no_fuel in E.
Qed.

Lemma vars_step_throws data element err w :
  Js.includes element "this." = true ->
  walk_path (VObj config) (variable_path element) = Throw err ->
  vars_step data element w = (Throw err, w).
Proof.
  intros Hi Hw. unfold vars_step. rewrite Hi. unfold_monad. simpl. by rewrite Hw.
Qed.

Lemma for_each_vars_throws blocks element err data w :
  In element blocks ->
  Js.includes element "this." = true ->
  walk_path (VObj config) (variable_path element) = Throw err ->
  exists err', for_each vars_step data blocks w = (Throw err', w).
Proof.
  intros Hin Hi Hw. revert data. induction blocks as [|b blocks IH]; intros data.
  - destruct Hin.
  - simpl. unfold mbind, M_bind.
    destruct (vars_step_pure data b w) as (r & Hr & Hfuel). rewrite Hr.
    destruct r as [data'|e|]; [|by eexists|done].
    destruct Hin as [->|Hin]; [|by apply IH].
    rewrite (vars_step_throws data element err w) in Hr by done. done.
Qed.

(** C7. When the text the variable pass receives holds a token with [this.]
    whose dotted path reaches a field that is not there and has keys still to
    read, compile.md raises nothing: the failure is caught and reported on the
    console, the value returned is [undefined] (no usable output), and the
    call completes, so whatever its caller does next, with the other files of
    a batch or the rest of a template, is done. *)
Theorem markdown_missing_field_soft_fail (inc : string -> option loc -> M value)
    (file src : string) (locals : loc) (w w1 : world) (included element : string)
    (pre : list string) (key : string) (rest : list string) :
  fs w !! file = Some (File src) ->
  mrkdwn_slm inc (marked (config_prop options "marked") src) w = (Ok included, w1) ->
  In element (Js.match_all "{{" variable_char included) ->
  Js.includes element "this." = true ->
  variable_path element = (pre ++ key :: rest)%list ->
  walk_path (VObj config) pre = Ok VUndefined ->
  exists err,
    let after :=
      World (fs w1) (heap w1) (console w1 ++ [LogError "compile.md" err]) in
    compile_md inc file (Some locals) w = (Ok VUndefined, after)
    /\ forall (B : Type) (next : value -> M B),
         (compile_md inc file (Some locals) ≫= next) w = next VUndefined after.
Proof.
  intros Hf Hslm Hin Hthis Hpath Hundef.
  destruct (walk_path_undefined_intermediate _ pre key rest Hundef) as [err Herr].
  rewrite <- Hpath in Herr.
  assert (exists err,
             compile_md inc file (Some locals) w
             = (Ok VUndefined,
                World (fs w1) (heap w1) (console w1 ++ [LogError "compile.md" err])))
    as [err' Hrun].
  { rewrite (compile_md_after_includes _ _ src _ _ w1 included) by done.
    unfold mrkdwn_vars.
    destruct (for_each_vars_throws _ element err included w1 Hin Hthis Herr) as [err' ->].
    by exists err'. }
  exists err'. split; [done|].
  intros B next. unfold mbind, M_bind. by rewrite Hrun.
Qed.

(** The include engine: which file is compiled, and by which compiler. *)
Definition with_notice (extname : string) (file : string) (locals : option loc) : M value :=
  data ← compile_default file locals;
  log (LogNotify extname);;
  mret data.

(** C5. A reference with no extension resolves to the reference with the
    default template extension appended, joined under the source root, and
    goes to the template compiler; a reference with an extension resolves as
    it is, joined under the source root, and goes to the compiler registered
    for the extension, or to the raw passthrough with a notice. *)
Theorem include_resolution (fuel : nat) (ref : string) (locals : option loc) :
  let source := opt_source options in
  let inc := include fuel in
  (Path.extname ref = "" ->
   include (S fuel) ref locals
   = (l ← default_locals locals;
      compile_slm inc (Path.join [source; ref +:+ ".slm"]) (Some l)))
  /\ (Path.extname ref <> "" ->
      exists compiler,
        In compiler [compile_slm inc; compile_md inc; compile_default;
                     with_notice (Path.extname ref)]
        /\ include (S fuel) ref locals
           = (l ← default_locals locals;
              compiler (Path.join [source; ref]) (Some l))).
Proof.
  intros source inc. split.
  - intros He. simpl. unfold include_body. rewrite He. done.
  - intros He. simpl. unfold include_body.
    apply String.eqb_neq in He. rewrite He.
    destruct (String.eqb (Js.replace (Path.extname ref) "." "") "slm");
      [eexists; split; [by left | done]|].
    destruct (String.eqb (Js.replace (Path.extname ref) "." "") "md");
      [eexists; split; [by right; left | done]|].
    destruct (String.eqb (Js.replace (Path.extname ref) "." "") "default");
      [eexists; split; [by right; right; left | done]|].
    eexists; split; [by right; right; right; left | done].
Qed.

(** C10. [main] and [walk] take a path for a template when it holds the
    extension anywhere, not only at its end: every such path is compiled,
    written and audited by [main], and [walk] hands the path it resolved to
    [main] instead of listing it as a directory. *)
Theorem template_files_by_containment (fuel : nat) (file : string) :
  occurs_in ".slm" file ->
  main fuel file
  = (compiled ← compile_slm (include fuel) file None;
     dist ← write file compiled;
     (if negb nopa11y then log (Audit dist) else mret tt);;
     mret dist)
  /\ forall child dir,
       dir <> "" ->
       file = (if Js.includes child dir then child else Path.join [dir; child]) ->
       walk (S fuel) child (Some dir) = (_ ← main fuel file; mret tt).
Proof.
  intros Hocc. apply includes_spec in Hocc. split.
  - unfold main. simpl. by rewrite Hocc.
  - intros child dir Hdir ->. simpl.
    apply String.eqb_neq in Hdir. rewrite Hdir. by rewrite Hocc.
Qed.

(** *** The locals object of a template compile *)

(** What [Object.assign(locals, opts.config)] followed by
    [locals.include = include] leaves in a locals object that held [o]. *)
Definition template_locals (o : obj) : obj :=
  <["include" := IncludeFn]> ((Data <$> config) ∪ o).

Lemma template_locals_config o key v :
  key <> "include" -> config !! key = Some v ->
  template_locals o !! key = Some (Data v).
Proof.
  intros Hk Hc. unfold template_locals.
  rewrite lookup_insert_ne by done.
  apply lookup_union_Some_l. by rewrite lookup_fmap, Hc.
Qed.

Lemma template_locals_other o key :
  key <> "include" -> config !! key = None ->
  template_locals o !! key = o !! key.
Proof.
  intros Hk Hc. unfold template_locals.
  rewrite lookup_insert_ne by done.
  apply lookup_union_r. by rewrite lookup_fmap, Hc.
Qed.

Lemma template_locals_include o : template_locals o !! "include" = Some IncludeFn.
Proof. unfold template_locals. by rewrite lookup_insert_eq. Qed.

Lemma template_locals_idem o : template_locals (template_locals o) = template_locals o.
Proof.
  apply map_eq. intros key. destruct (decide (key = "include")) as [->|Hk].
  - by rewrite !template_locals_include.
  - destruct (config !! key) as [v|] eqn:Hc.
    + by rewrite !(template_locals_config _ key v).
    + by rewrite !template_locals_other.
Qed.

(** The two assignments, run: the object is updated where it lives. *)
Lemma merge_locals_run {A} l (rest : M A) w :
  (object_assign l config;; set_prop l "include" IncludeFn;; rest) w
  = rest (World (fs w)
            (<[l := template_locals (default ∅ (heap w !! l))]> (heap w))
            (console w)).
Proof.
  unfold object_assign, set_prop, update_obj, mbind, M_bind. simpl.
  rewrite lookup_insert_eq. simpl. by rewrite insert_insert_eq.
Qed.

Lemma compile_slm_present inc file src l o w :
  fs w !! file = Some (File src) ->
  heap w !! l = Some o ->
  compile_slm inc file (Some l) w
  = try_catch
      (data ← render inc l (slm src file (opt_base_path options) (template_locals o));
       mret (VStr (if truthy (config_prop options "beautify")
                   then beautify (config_prop options "beautify") (VStr data)
                   else data)))
      (fun err => log (LogError "compile.slm" err);; mret VUndefined)
      (World (fs w) (<[l := template_locals o]> (heap w)) (console w)).
Proof.
  intros Hf Hl. unfold compile_slm. unfold_monad.
  rewrite (existsSync_present file (File src)) by done.
  cbn [negb]. cbv beta iota. unfold readFileSync. rewrite Hf. cbv beta iota.
  unfold object_assign, set_prop, read_obj, update_obj. cbv beta iota.
  cbn [heap fs console]. rewrite Hl. cbn [default].
  rewrite !lookup_insert_eq. cbn [default]. rewrite insert_insert_eq. done.
Qed.

(** [m] leaves the object at [l] holding [O]. *)
Definition keeps {A} (l : loc) (O : obj) (m : M A) : Prop :=
  forall w, heap w !! l = Some O -> heap (m w).2 !! l = Some O.

Lemma keeps_ret {A} l O (a : A) : keeps l O (mret a).
Proof. by intros w H. Qed.

Lemma keeps_bind {A B} l O (m : M A) (f : A -> M B) :
  keeps l O m -> (forall a, keeps l O (f a)) -> keeps l O (m ≫= f).
Proof.
  intros Hm Hf w H. unfold mbind, M_bind. specialize (Hm w H).
  destruct (m w) as [[a|e|] w']; simpl in *; auto. by apply Hf.
Qed.

Lemma keeps_try_catch {A} l O (m : M A) (h : string -> M A) :
  keeps l O m -> (forall e, keeps l O (h e)) -> keeps l O (try_catch m h).
Proof.
  intros Hm Hh w H. unfold try_catch. specialize (Hm w H).
  destruct (m w) as [[a|e|] w']; simpl in *; auto. by apply Hh.
Qed.

Lemma keeps_state_free {A} l O (m : M A) :
  (forall w, heap (m w).2 = heap w) -> keeps l O m.
Proof. intros Hm w H. by rewrite Hm. Qed.

Lemma keeps_log l O e : keeps l O (log e).
Proof. by apply keeps_state_free. Qed.

Lemma keeps_existsSync l O p : keeps l O (existsSync p).
Proof. by apply keeps_state_free. Qed.

Lemma keeps_readFileSync l O p : keeps l O (readFileSync p).
Proof.
  apply keeps_state_free. intros w. unfold readFileSync.
  by destruct (fs w !! p) as [[]|].
Qed.

Lemma keeps_lift {A} l O (o : outcome A) : keeps l O (lift o).
Proof. by apply keeps_state_free. Qed.

Lemma keeps_read_obj l O l' : keeps l O (read_obj l').
Proof. by apply keeps_state_free. Qed.

(** A new object is never the one at [l]. *)
Lemma keeps_alloc_then {A} l O (f : loc -> M A) :
  (forall l', l' <> l -> keeps l O (f l')) -> keeps l O (alloc ≫= f).
Proof.
  intros Hf w H. unfold mbind, M_bind, alloc.
  assert (fresh (dom (heap w)) <> l) as Hne.
  { intros Heq. apply (is_fresh (dom (heap w))). rewrite Heq.
    apply elem_of_dom. by eexists. }
  apply Hf; [done|]. simpl. by rewrite lookup_insert_ne.
Qed.

Lemma keeps_update_other l O l' f : l' <> l -> keeps l O (update_obj l' f).
Proof. intros Hne w H. unfold update_obj. simpl. by rewrite lookup_insert_ne. Qed.

Lemma keeps_default_locals {A} l O locals (f : loc -> M A) :
  (forall l', keeps l O (f l')) -> keeps l O (default_locals locals ≫= f).
Proof.
  intros Hf. destruct locals as [l'|]; simpl.
  - apply keeps_bind; [apply keeps_ret | done].
  - apply keeps_alloc_then. auto.
Qed.

Lemma keeps_merge_then {A} l l' o (rest : M A) :
  keeps l (template_locals o) rest ->
  keeps l (template_locals o)
    (object_assign l' config;; set_prop l' "include" IncludeFn;; rest).
Proof.
  intros Hrest w H. rewrite merge_locals_run. apply Hrest. simpl.
  destruct (decide (l' = l)) as [->|Hne].
  - rewrite lookup_insert_eq, H. simpl. by rewrite template_locals_idem.
  - by rewrite lookup_insert_ne.
Qed.

Lemma keeps_for_each {A B} l O (f : A -> B -> M A) a bs :
  (forall a b, keeps l O (f a b)) -> keeps l O (for_each f a bs).
Proof.
  intros Hf. revert a. induction bs as [|b bs IH]; intros a; simpl.
  - apply keeps_ret.
  - apply keeps_bind; auto.
Qed.

Lemma keeps_mrkdwn_vars l O data : keeps l O (mrkdwn_vars data).
Proof.
  apply keeps_for_each. intros a b. apply keeps_state_free. intros w.
  destruct (vars_step_pure a b w) as (r & -> & _). done.
Qed.

Section KeepsWithInclude.

Variable inc : string -> option loc -> M value.
Variable l : loc.
Variable o : obj.
Hypothesis keeps_inc : forall ref locals, keeps l (template_locals o) (inc ref locals).

Lemma keeps_render own t : keeps l (template_locals o) (render inc own t).
Proof.
  induction t as [html|err|ref arg k IH]; simpl.
  - apply keeps_ret.
  - by apply keeps_state_free.
  - assert (forall locals, keeps l (template_locals o)
              (v ← inc ref locals; render inc own (k v))) as Hcall.
    { intros locals. apply keeps_bind; auto. }
    destruct arg as [|fresh_obj|].
    + apply keeps_bind; [apply keeps_ret | auto].
    + apply keeps_bind; [|auto].
      apply keeps_alloc_then. intros l' Hne.
      apply keeps_bind; [by apply keeps_update_other | intros; apply keeps_ret].
    + apply keeps_bind; [apply keeps_ret | auto].
Qed.

Lemma keeps_compile_slm file locals :
  keeps l (template_locals o) (compile_slm inc file locals).
Proof.
  unfold compile_slm. apply keeps_default_locals. intros l'.
  apply keeps_try_catch.
  - apply keeps_bind; [apply keeps_existsSync|]. intros present.
    destruct (negb present); [apply keeps_ret|].
    apply keeps_bind; [apply keeps_readFileSync|]. intros src.
    apply keeps_merge_then.
    apply keeps_bind; [apply keeps_read_obj|]. intros seen.
    apply keeps_bind; [apply keeps_render|]. intros data. apply keeps_ret.
  - intros e. apply keeps_bind; [apply keeps_log | intros; apply keeps_ret].
Qed.

Lemma keeps_mrkdwn_slm data : keeps l (template_locals o) (mrkdwn_slm inc data).
Proof.
  apply keeps_for_each. intros a b. unfold slm_step.
  apply keeps_bind; [apply keeps_inc | intros; apply keeps_lift].
Qed.

Lemma keeps_compile_md file locals :
  keeps l (template_locals o) (compile_md inc file locals).
Proof.
  unfold compile_md. apply keeps_default_locals. intros _.
  apply keeps_try_catch.
  - apply keeps_bind; [apply keeps_existsSync|]. intros present.
    destruct (negb present); [apply keeps_ret|].
    apply keeps_bind; [apply keeps_readFileSync|]. intros md.
    apply keeps_bind; [apply keeps_mrkdwn_slm|]. intros md1.
    apply keeps_bind; [apply keeps_mrkdwn_vars | intros; apply keeps_ret].
  - intros e. apply keeps_bind; [apply keeps_log | intros; apply keeps_ret].
Qed.

Lemma keeps_compile_default file locals :
  keeps l (template_locals o) (compile_default file locals).
Proof.
  unfold compile_default. apply keeps_default_locals. intros _.
  apply keeps_try_catch.
  - apply keeps_bind; [apply keeps_existsSync|]. intros present.
    destruct (negb present); [apply keeps_ret|].
    apply keeps_bind; [apply keeps_readFileSync | intros; apply keeps_ret].
  - intros e. apply keeps_bind; [apply keeps_log | intros; apply keeps_ret].
Qed.

Lemma keeps_include_body ref locals :
  keeps l (template_locals o) (include_body inc ref locals).
Proof.
  unfold include_body. apply keeps_default_locals. intros l'.
  destruct (String.eqb (Path.extname ref) "").
  - destruct (String.eqb _ "slm"); [apply keeps_compile_slm|].
    destruct (String.eqb _ "md"); [apply keeps_compile_md|].
    destruct (String.eqb _ "default"); [apply keeps_compile_default|].
    apply keeps_bind; [apply keeps_compile_default|]. intros data.
    apply keeps_bind; [apply keeps_log | intros; apply keeps_ret].
  - destruct (String.eqb _ "slm"); [apply keeps_compile_slm|].
    destruct (String.eqb _ "md"); [apply keeps_compile_md|].
    destruct (String.eqb _ "default"); [apply keeps_compile_default|].
    apply keeps_bind; [apply keeps_compile_default|]. intros data.
    apply keeps_bind; [apply keeps_log | intros; apply keeps_ret].
Qed.

End KeepsWithInclude.

Lemma keeps_include l o fuel ref locals :
  keeps l (template_locals o) (include fuel ref locals).
Proof.
  revert ref locals. induction fuel as [|fuel IH]; intros ref locals; simpl.
  - by apply keeps_state_free.
  - by apply keeps_include_body.
Qed.

(** C1, as the code has it.  compile.slm works on the caller's own locals
    object, not on a copy.  When the file is read, the caller's object holds,
    after the call, the configuration's entries over its own and the include
    function, whatever includes the template makes and however deep they go;
    when there is no file to read (none at the path, or a directory) the
    caller's object is as it was. *)
Theorem compile_slm_updates_callers_locals (fuel : nat) (file : string) (l : loc)
    (o : obj) (w : world) :
  heap w !! l = Some o ->
  heap (compile_slm (include fuel) file (Some l) w).2 !! l
  = match fs w !! file with
    | Some (File _) => Some (template_locals o)
    | _ => Some o
    end.
Proof.
  intros Hl. destruct (fs w !! file) as [[src|entries]|] eqn:Hf.
  - rewrite (compile_slm_present _ _ src l o) by done.
    apply keeps_try_catch.
    + apply keeps_bind; [|intros; apply keeps_ret].
      apply keeps_render. intros. apply keeps_include.
    + intros e. apply keeps_bind; [apply keeps_log | intros; apply keeps_ret].
    + simpl. by rewrite lookup_insert_eq.
  - unfold compile_slm. unfold_monad.
    rewrite (existsSync_present file (Dir entries)) by done.
    cbn [negb]. cbv beta iota. unfold readFileSync. rewrite Hf. done.
  - unfold compile_slm. unfold_monad.
    rewrite (existsSync_absent file) by done. done.
Qed.

(** C4, as the code has it.  For every key other than [include] that the
    caller's locals and the configuration both hold, the template is rendered
    with the configuration's value; under [include] it is rendered with the
    include function, whatever the locals or the configuration hold there. *)
Theorem config_wins_over_locals (inc : string -> option loc -> M value)
    (file src : string) (l : loc) (o : obj) (w : world)
    (key : string) (mine : lvalue) (theirs : value) :
  fs w !! file = Some (File src) ->
  heap w !! l = Some o ->
  o !! key = Some mine ->
  config !! key = Some theirs ->
  key <> "include" ->
  exists seen : obj,
    seen !! key = Some (Data theirs)
    /\ seen !! "include" = Some IncludeFn
    /\ compile_slm inc file (Some l) w
       = try_catch
           (data ← render inc l (slm src file (opt_base_path options) seen);
            mret (VStr (if truthy (config_prop options "beautify")
                        then beautify (config_prop options "beautify") (VStr data)
                        else data)))
           (fun err => log (LogError "compile.slm" err);; mret VUndefined)
           (World (fs w) (<[l := seen]> (heap w)) (console w)).
Proof.
  intros Hf Hl Hmine Htheirs Hkey. exists (template_locals o).
  split; [by apply template_locals_config|].
  split; [apply template_locals_include|].
  by apply compile_slm_present.
Qed.

(** *** The change router *)

(** Ownership as the specification words it: the name of the directory that
    holds the changed path is the view's base name, and that directory is not
    the views directory. *)
Definition owns_by_name (opts : options_t) (dir changed view : string) : bool :=
  String.eqb (Path.basename1 (Path.dirname changed)) (Path.basename view (opt_ext opts))
  && negb (String.eqb (Path.dirname changed) dir).

(** C2, as the code has it.  A view owns a changed path exactly when the path
    of the directory that holds the changed path contains the view's base name
    (extension stripped) and does not contain the path of the views directory.
    In development the handler announces the change and then: when some view
    owns the changed path, compiles the file named after that directory, with
    the extension, inside the views directory (the owning view's file when the
    directory bears the view's base name); when no view owns it and its path
    contains the path of the views directory, compiles the changed path
    itself; otherwise walks the whole views directory.  Outside development
    nothing is classified: every change walks the whole views directory. *)
Theorem change_router_ownership (fuel : nat) (views : list string) (dir changed : string) :
  let folder := Path.dirname changed in
  let announced (next : M unit) : M unit :=
    log (LogWatching ("Detected change on " +:+ changed));; next in
  let compiles (target : string) : M unit := _ ← main fuel target; mret tt in
  (forall view,
      owns options dir changed view = true
      <-> occurs_in (Path.basename view ".slm") folder /\ ~ occurs_in dir folder)
  /\ (hasView options views dir changed = true
      <-> exists view, In view views /\ owns options dir changed view = true)
  /\ (development = true ->
      (hasView options views dir changed = true ->
       on_change fuel views dir changed
       = announced (compiles (Path.join [dir; Path.basename1 folder +:+ ".slm"])))
      /\ (forall view,
             In view views ->
             owns options dir changed view = true ->
             Path.basename1 folder = Path.basename view ".slm" ->
             view = Path.basename view ".slm" +:+ ".slm" ->
             on_change fuel views dir changed = announced (compiles (Path.join [dir; view])))
      /\ (hasView options views dir changed = false ->
          occurs_in dir changed ->
          on_change fuel views dir changed = announced (compiles changed))
      /\ (hasView options views dir changed = false ->
          ~ occurs_in dir changed ->
          on_change fuel views dir changed = announced (walk fuel dir None)))
  /\ (development = false ->
      on_change fuel views dir changed = walk fuel dir None).
Proof.
  intros folder announced compiles.
  assert (forall view,
      owns options dir changed view = true
      <-> occurs_in (Path.basename view ".slm") folder /\ ~ occurs_in dir folder) as Howns.
  { intros view. unfold owns. simpl opt_ext.
    rewrite andb_true_iff, negb_true_iff, includes_spec.
    rewrite <- (includes_spec folder dir), not_true_iff_false. done. }
  assert (hasView options views dir changed = true
      <-> exists view, In view views /\ owns options dir changed view = true) as Hhas.
  { unfold hasView. apply existsb_exists. }
  assert (hasView options views dir changed = true ->
          development = true ->
          on_change fuel views dir changed
          = announced (compiles (Path.join [dir; Path.basename1 folder +:+ ".slm"])))
    as Howned.
  { intros H Hdev. unfold on_change, changed_target. by rewrite Hdev, H. }
  split; [done|]. split; [done|]. split.
  - intros Hdev. split; [by intros H; apply Howned|]. split; [|split].
    + intros view Hin Hown Hname Hview.
      rewrite Howned; [by rewrite Hname, <- Hview | apply Hhas; eauto | done].
    + intros H Hin%includes_spec. unfold on_change, changed_target, inViews.
      by rewrite Hdev, H, Hin.
    + intros H Hout. unfold on_change, changed_target, inViews.
      rewrite Hdev, H. rewrite <- includes_spec, not_true_iff_false in Hout.
      by rewrite Hout.
  - intros Hdev. unfold on_change. by rewrite Hdev.
Qed.

(** *** The variable pass of markdown *)







(** *** The include pass of markdown *)

Lemma replace_found s pat rep b a :
  Js.find_first pat s = Some (b, a) ->
  Js.replace s pat rep = b +:+ Js.get_substitution pat b a rep +:+ a.
Proof. intros H. unfold Js.replace. by rewrite H. Qed.

(** The one directive of a document: it opens with [include{{] and stands in
    the document. *)
Lemma include_directive_in data element :
  In element (Js.match_all "include{{" include_path_char data) ->
  Js.starts_with "include{{" element = true /\ occurs_in element data.
Proof.
  intros (before & rest & -> & Hm)%match_all_go_in.
  apply match_token_prefix in Hm as [Hopen [rest' ->]].
  split; [done|]. by exists before, rest'.
Qed.

(** C9. The include pass inserts the compiled fragment as a replacement
    pattern, not as plain text.  For a document with one include directive,
    standing first between the texts [before] and [after], whose include
    returns a text, the pass returns [before], the fragment read as a
    replacement pattern, and [after]: in a fragment that holds [$$] a single
    dollar sign comes out, and one that holds [$&] comes out with the
    directive itself in that place; either way the output is not the document
    with the fragment's text put in place of the directive, and so whenever
    the pattern reading of the fragment is not the fragment. *)
Theorem include_pass_pattern_replace (inc : string -> option loc -> M value)
    (data element fragment before after : string) (w w' : world) :
  Js.match_all "include{{" include_path_char data = [element] ->
  Js.find_first element data = Some (before, after) ->
  inc (include_file element) None w = (Ok (VStr fragment), w') ->
  data = before +:+ element +:+ after
    /\ Js.replace_literal data element fragment = before +:+ fragment +:+ after
    /\ mrkdwn_slm inc data w
       = (Ok (before +:+ Js.get_substitution element before after fragment +:+ after), w')
    /\ (Js.get_substitution element before after fragment <> fragment ->
        mrkdwn_slm inc data w <> (Ok (Js.replace_literal data element fragment), w'))
    /\ (forall l r,
          has_char "$"%char l = false -> has_char "$"%char r = false ->
          (fragment = l +:+ "$$" +:+ r ->
           mrkdwn_slm inc data w = (Ok (before +:+ (l +:+ "$" +:+ r) +:+ after), w')
           /\ mrkdwn_slm inc data w <> (Ok (Js.replace_literal data element fragment), w'))
          /\ (fragment = l +:+ "$&" +:+ r ->
              mrkdwn_slm inc data w = (Ok (before +:+ (l +:+ element +:+ r) +:+ after), w')
              /\ mrkdwn_slm inc data w
                 <> (Ok (Js.replace_literal data element fragment), w'))).
Proof.
  intros Hblocks Hfind Hinc.
  destruct (include_directive_in data element) as [Hopen Hocc];
    [rewrite Hblocks; by left|].
  pose proof (find_first_spec _ _ _ _ Hfind) as Hdata.
  assert (Js.replace_literal data element fragment = before +:+ fragment +:+ after)
    as Hliteral by (unfold Js.replace_literal; by rewrite Hfind).
  assert (mrkdwn_slm inc data w
          = (Ok (before +:+ Js.get_substitution element before after fragment +:+ after),
             w')) as Hrun.
  { unfold mrkdwn_slm. rewrite Hblocks. cbn [for_each]. unfold slm_step.
    unfold_monad. rewrite Hinc.
    rewrite (replace_value_text _ _ _ fragment) by done.
    by rewrite (replace_found _ _ _ _ _ Hfind). }
  assert (Js.get_substitution element before after fragment <> fragment ->
          mrkdwn_slm inc data w <> (Ok (Js.replace_literal data element fragment), w'))
    as Hdiffers.
  { intros Hne. rewrite Hrun, Hliteral. intros [= Heq%app_inj_l%app_inj_r]. done. }
  split; [done|]. split; [done|]. split; [done|]. split; [done|].
  intros l r Hl Hr. split; intros ->.
  - assert (Js.get_substitution element before after (l +:+ "$$" +:+ r)
            = l +:+ "$" +:+ r) as Hsub.
    { rewrite get_substitution_app by done.
      change ("$$" +:+ r) with (String "$"%char (String "$"%char r)).
      by rewrite get_substitution_dollar, get_substitution_plain. }
    split; [by rewrite Hrun, Hsub|]. apply Hdiffers. rewrite Hsub.
    intros Heq. apply (f_equal String.length) in Heq.
    rewrite !app_length in Heq. simpl in Heq. lia.
  - assert (Js.get_substitution element before after (l +:+ "$&" +:+ r)
            = l +:+ element +:+ r) as Hsub.
    { rewrite get_substitution_app by done.
      change ("$&" +:+ r) with (String "$"%char (String "&"%char r)).
      by rewrite get_substitution_matched, get_substitution_plain. }
    split; [by rewrite Hrun, Hsub|]. apply Hdiffers. rewrite Hsub.
    intros Heq%app_inj_l.
    apply starts_with_spec in Hopen as [t ->]. discriminate Heq.
Qed.

(** ** Further properties of the build command *)

(** *** Errors do not escape *)

Definition never_throws {A} (m : M A) : Prop :=
  forall w e, (m w).1 <> Throw e.

Lemma never_throws_ret {A} (a : A) : never_throws (mret a).
Proof. by intros w e. Qed.

Lemma never_throws_bind {A B} (m : M A) (f : A -> M B) :
  never_throws m -> (forall a, never_throws (f a)) -> never_throws (m ≫= f).
Proof.
  intros Hm Hf w e. unfold mbind, M_bind. specialize (Hm w).
  destruct (m w) as [[a|e'|] w']; simpl in *; [apply Hf | by destruct (Hm e') | done].
Qed.

Lemma never_throws_try_catch {A} (m : M A) (h : string -> M A) :
  (forall e, never_throws (h e)) -> never_throws (try_catch m h).
Proof.
  intros Hh w e. unfold try_catch.
  destruct (m w) as [[a|e'|] w']; simpl; [done | apply Hh | done].
Qed.

Lemma never_throws_log entry : never_throws (log entry).
Proof. by intros w e. Qed.

Lemma never_throws_default_locals locals : never_throws (default_locals locals).
Proof. by destruct locals; intros w e. Qed.

Lemma never_throws_report {A} origin (a : A) err :
  never_throws (log (LogError origin err);; mret a).
Proof. apply never_throws_bind; [apply never_throws_log | intros; apply never_throws_ret]. Qed.

Lemma never_throws_compile_slm inc file locals : never_throws (compile_slm inc file locals).
Proof.
  apply never_throws_bind; [apply never_throws_default_locals|]. intros l.
  apply never_throws_try_catch. intros e. apply never_throws_report.
Qed.

Lemma never_throws_compile_md inc file locals : never_throws (compile_md inc file locals).
Proof.
  apply never_throws_bind; [apply never_throws_default_locals|]. intros l.
  apply never_throws_try_catch. intros e. apply never_throws_report.
Qed.

Lemma never_throws_compile_default file locals : never_throws (compile_default file locals).
Proof.
  apply never_throws_bind; [apply never_throws_default_locals|]. intros l.
  apply never_throws_try_catch. intros e. apply never_throws_report.
Qed.

Lemma never_throws_write file data : never_throws (write file data).
Proof. apply never_throws_try_catch. intros e. apply never_throws_report. Qed.

Lemma never_throws_main fuel file : never_throws (main fuel file).
Proof.
  unfold main. destruct (Js.includes file (opt_ext options)); [|apply never_throws_ret].
  apply never_throws_bind; [apply never_throws_compile_slm|]. intros compiled.
  apply never_throws_bind; [apply never_throws_write|]. intros dist.
  apply never_throws_bind; [|intros; apply never_throws_ret].
  destruct (negb nopa11y); [apply never_throws_log | apply never_throws_ret].
Qed.

Lemma never_throws_walk fuel file dir : never_throws (walk fuel file dir).
Proof.
  destruct fuel as [|fuel]; simpl; [by intros w e|].
  match goal with |- never_throws (if ?c then _ else _) => destruct c end.
  - apply never_throws_bind; [apply never_throws_main | intros; apply never_throws_ret].
  - apply never_throws_try_catch. intros e. apply never_throws_log.
Qed.

(** [m] does not stop on a budget. *)
Definition completes {A} (m : M A) : Prop :=
  forall w, (m w).1 <> OutOfFuel.

Lemma completes_ret {A} (a : A) : completes (mret a).
Proof. by intros w. Qed.

Lemma completes_bind {A B} (m : M A) (f : A -> M B) :
  completes m -> (forall a, completes (f a)) -> completes (m ≫= f).
Proof.
  intros Hm Hf w. unfold mbind, M_bind. specialize (Hm w).
  destruct (m w) as [[a|e|] w']; simpl in *; [apply Hf | done | done].
Qed.

Lemma completes_try_catch {A} (m : M A) (h : string -> M A) :
  completes m -> (forall e, completes (h e)) -> completes (try_catch m h).
Proof.
  intros Hm Hh w. unfold try_catch. specialize (Hm w).
  destruct (m w) as [[a|e|] w']; simpl in *; [done | apply Hh | done].
Qed.

Lemma completes_lift {A} (o : outcome A) : o <> OutOfFuel -> completes (lift o).
Proof. by intros H w. Qed.

Lemma completes_readFileSync p : completes (readFileSync p).
Proof. intros w. unfold readFileSync. by destruct (fs w !! p) as [[]|]. Qed.

Lemma completes_default_locals locals : completes (default_locals locals).
Proof. by destruct locals; intros w. Qed.

Lemma completes_report {A} origin (a : A) err :
  completes (log (LogError origin err);; mret a).
Proof. by intros w. Qed.

Lemma completes_for_each {A B} (f : A -> B -> M A) a bs :
  (forall a b, completes (f a b)) -> completes (for_each f a bs).
Proof.
  intros Hf. revert a. induction bs as [|b bs IH]; intros a; simpl.
  - apply completes_ret.
  - apply completes_bind; auto.
Qed.

Lemma completes_mrkdwn_vars data : completes (mrkdwn_vars data).
Proof.
  apply completes_for_each. intros a b w.
  by destruct (vars_step_pure a b w) as (r & -> & Hr).
Qed.

Section CompletesWithInclude.

Variable inc : string -> option loc -> M value.
Hypothesis completes_inc : forall ref locals, completes (inc ref locals).

Lemma completes_render own t : completes (render inc own t).
Proof.
  induction t as [html|err|ref arg k IH]; simpl.
  - apply completes_ret.
  - by intros w.
  - apply completes_bind.
    + destruct arg; try apply completes_ret. by intros w.
    + intros locals. apply completes_bind; auto.
Qed.

Lemma completes_compile_slm file locals : completes (compile_slm inc file locals).
Proof.
  apply completes_bind; [apply completes_default_locals|]. intros l.
  apply completes_try_catch; [|intros; apply completes_report].
  apply completes_bind; [by intros w|]. intros present.
  destruct (negb present); [apply completes_ret|].
  apply completes_bind; [apply completes_readFileSync|]. intros src.
  apply completes_bind; [by intros w|]. intros _.
  apply completes_bind; [by intros w|]. intros _.
  apply completes_bind; [by intros w|]. intros seen.
  apply completes_bind; [apply completes_render | intros; apply completes_ret].
Qed.

Lemma completes_compile_md file locals : completes (compile_md inc file locals).
Proof.
  apply completes_bind; [apply completes_default_locals|]. intros l.
  apply completes_try_catch; [|intros; apply completes_report].
  apply completes_bind; [by intros w|]. intros present.
  destruct (negb present); [apply completes_ret|].
  apply completes_bind; [apply completes_readFileSync|]. intros md.
  apply completes_bind.
  - apply completes_for_each. intros a b.
    apply completes_bind; [apply completes_inc|]. intros compiled.
    apply completes_lift, replace_value_no_fuel.
  - intros md1.
    apply completes_bind; [apply completes_mrkdwn_vars | intros; apply completes_ret].
Qed.

Lemma completes_compile_default file locals : completes (compile_default file locals).
Proof.
  apply completes_bind; [apply completes_default_locals|]. intros l.
  apply completes_try_catch; [|intros; apply completes_report].
  apply completes_bind; [by intros w|]. intros present.
  destruct (negb present); [apply completes_ret|].
  apply completes_bind; [apply completes_readFileSync | intros; apply completes_ret].
Qed.

Lemma completes_include_body ref locals : completes (include_body inc ref locals).
Proof.
  unfold include_body.
  apply completes_bind; [apply completes_default_locals|]. intros l.
  destruct (String.eqb (Path.extname ref) "").
  all: destruct (String.eqb _ "slm"); [apply completes_compile_slm|].
  all: destruct (String.eqb _ "md"); [apply completes_compile_md|].
  all: destruct (String.eqb _ "default"); [apply completes_compile_default|].
  all: apply completes_bind; [apply completes_compile_default|]; intros data.
  all: by intros w.
Qed.

End CompletesWithInclude.

Lemma completes_include fuel ref locals : completes (include fuel ref locals).
Proof.
  revert ref locals. induction fuel as [|fuel IH]; intros ref locals; simpl.
  - by intros w.
  - by apply completes_include_body.
Qed.

(** [m] ends with a value. *)
Definition returns {A} (m : M A) : Prop :=
  forall w, exists a w', m w = (Ok a, w').

Lemma returns_of {A} (m : M A) : never_throws m -> completes m -> returns m.
Proof.
  intros Hthrow Hfuel w. specialize (Hthrow w). specialize (Hfuel w).
  destruct (m w) as [[a|e|] w']; simpl in *; [by eexists _, _ | by destruct (Hthrow e) | done].
Qed.

Lemma returns_ret {A} (a : A) : returns (mret a).
Proof. intros w. by eexists _, _. Qed.

Lemma returns_bind {A B} (m : M A) (f : A -> M B) :
  returns m -> (forall a, returns (f a)) -> returns (m ≫= f).
Proof.
  intros Hm Hf w. unfold mbind, M_bind. destruct (Hm w) as (a & w' & ->). apply Hf.
Qed.

Lemma returns_log entry : returns (log entry).
Proof. intros w. by eexists _, _. Qed.

Lemma completes_mkdirSync p : completes (mkdirSync p).
Proof.
  intros w. unfold mkdirSync. destruct (fs w !! p); [done|].
  by destruct (fs w !! Path.dirname p) as [[]|].
Qed.

Lemma completes_writeFileSync p data : completes (writeFileSync p data).
Proof.
  intros w. unfold writeFileSync. destruct data; try done.
  destruct (fs w !! p) as [[]|]; try done.
  all: by destruct (fs w !! Path.dirname p) as [[]|].
Qed.

Lemma completes_write file data : completes (write file data).
Proof.
  apply completes_try_catch; [|intros; apply completes_report].
  apply completes_bind; [by intros w|]. intros present.
  apply completes_bind.
  { destruct (negb present); [apply completes_mkdirSync | apply completes_ret]. }
  intros _. apply completes_bind; [apply completes_writeFileSync|].
  intros _. by intros w.
Qed.

Lemma returns_main fuel file : returns (main fuel file).
Proof.
  unfold main. destruct (Js.includes file (opt_ext options)); [|apply returns_ret].
  apply returns_bind.
  { apply returns_of; [apply never_throws_compile_slm|].
    apply completes_compile_slm. intros. apply completes_include. }
  intros compiled. apply returns_bind.
  { apply returns_of; [apply never_throws_write | apply completes_write]. }
  intros dist. apply returns_bind; [|intros; apply returns_ret].
  destruct (negb nopa11y); [apply returns_log | apply returns_ret].
Qed.

(** What a guarded function leaves: a text, or [undefined] right after the
    report of the error it caught. *)
Definition contained (origin : string) (r : outcome value * world) : Prop :=
  (exists text, r.1 = Ok (VStr text))
  \/ (r.1 = Ok VUndefined
      /\ exists earlier err, console r.2 = (earlier ++ [LogError origin err])%list).

Definition returns_text (m : M value) : Prop :=
  forall w v w', m w = (Ok v, w') -> exists text, v = VStr text.

Lemma returns_text_ret text : returns_text (mret (VStr text)).
Proof. intros w v w' [= <- _]. by eexists. Qed.

Lemma returns_text_bind {A} (m : M A) (f : A -> M value) :
  (forall a, returns_text (f a)) -> returns_text (m ≫= f).
Proof.
  intros Hf w v w'. unfold mbind, M_bind.
  destruct (m w) as [[a|e|] w1]; [apply Hf | done | done].
Qed.

Lemma contained_try_catch origin (body : M value) w :
  (try_catch body (fun err => log (LogError origin err);; mret VUndefined) w).1
  <> OutOfFuel ->
  returns_text body ->
  contained origin
    (try_catch body (fun err => log (LogError origin err);; mret VUndefined) w).
Proof.
  intros Hfuel Htext. unfold try_catch in *. specialize (Htext w).
  destruct (body w) as [[v|e|] w1]; simpl in *; [| |done].
  - left. destruct (Htext v w1 eq_refl) as [text ->]. by exists text.
  - right. split; [done|]. by exists (console w1), e.
Qed.

Lemma contained_guarded origin locals (body : loc -> M value) w :
  ((l ← default_locals locals;
    try_catch (body l) (fun err => log (LogError origin err);; mret VUndefined)) w).1
  <> OutOfFuel ->
  (forall l, returns_text (body l)) ->
  contained origin
    ((l ← default_locals locals;
      try_catch (body l) (fun err => log (LogError origin err);; mret VUndefined)) w).
Proof.
  unfold mbind, M_bind.
  destruct locals as [l|]; cbn [default_locals]; unfold mret, M_ret, alloc;
    cbv beta iota; intros Hfuel Htext; by apply contained_try_catch.
Qed.

(** X1.  No error escapes the build, whatever the disk, the templates and the
    configuration hold and however little room the call stack has.  Each of
    the three compilers and the writer ends with a text, or else with
    [undefined] right after reporting the error it caught on the console;
    [main] ends with a value; [walk], the change handler and [run] end without
    an error (in the model a walk can also use up the budget for the depth of
    the tree).  [include] has no guard of its own: what it throws is caught by
    the compiler of the file that includes. *)
Theorem errors_never_escape (fuel : nat) (file : string) (locals : option loc)
    (data : value) (dir : option string) (views : list string) (folder : string)
    (w : world) :
  contained "compile.slm" (compile_slm (include fuel) file locals w)
  /\ contained "compile.md" (compile_md (include fuel) file locals w)
  /\ contained "compile.default" (compile_default file locals w)
  /\ contained "write" (write file data w)
  /\ (exists dist w', main fuel file w = (Ok dist, w'))
  /\ (forall err, (walk fuel file dir w).1 <> Throw err)
  /\ (forall err, (on_change fuel views folder file w).1 <> Throw err)
  /\ (forall err, (run fuel w).1 <> Throw err).
Proof.
  assert (forall ref ls, completes (include fuel ref ls)) as Hinc
    by (intros; apply completes_include).
  split; [|split; [|split; [|split; [|split; [|split; [|split]]]]]].
  - apply contained_guarded; [by apply completes_compile_slm|].
    intros l. apply returns_text_bind. intros present.
    destruct (negb present); [apply returns_text_ret|].
    do 5 (apply returns_text_bind; intros ?). apply returns_text_ret.
  - apply contained_guarded; [by apply completes_compile_md|].
    intros l. apply returns_text_bind. intros present.
    destruct (negb present); [apply returns_text_ret|].
    do 3 (apply returns_text_bind; intros ?). apply returns_text_ret.
  - apply contained_guarded; [apply completes_compile_default|].
    intros l. apply returns_text_bind. intros present.
    destruct (negb present); [apply returns_text_ret|].
    apply returns_text_bind; intros ?. apply returns_text_ret.
  - apply contained_try_catch; [apply completes_write|].
    do 4 (apply returns_text_bind; intros ?). apply returns_text_ret.
  - apply returns_main.
  - intros err. apply never_throws_walk.
  - assert (never_throws (on_change fuel views folder file)) as Hhandler;
      [|intros err; apply Hhandler].
    unfold on_change. destruct development; [|apply never_throws_walk].
    apply never_throws_bind; [apply never_throws_log|]. intros _.
    destruct (_ || _); [|apply never_throws_walk].
    apply never_throws_bind; [apply never_throws_main | intros; apply never_throws_ret].
  - assert (never_throws (run fuel)) as Hrun; [|intros err; apply Hrun].
    apply never_throws_try_catch. intros e. apply never_throws_report.
Qed.

(** *** Compiling reads the disk and never writes it *)

Definition leaves_disk {A} (m : M A) : Prop :=
  forall w, fs (m w).2 = fs w.

Lemma leaves_disk_ret {A} (a : A) : leaves_disk (mret a).
Proof. by intros w. Qed.

Lemma leaves_disk_bind {A B} (m : M A) (f : A -> M B) :
  leaves_disk m -> (forall a, leaves_disk (f a)) -> leaves_disk (m ≫= f).
Proof.
  intros Hm Hf w. unfold mbind, M_bind. specialize (Hm w).
  destruct (m w) as [[a|e|] w']; simpl in *; [|done..]. by rewrite Hf.
Qed.

Lemma leaves_disk_try_catch {A} (m : M A) (h : string -> M A) :
  leaves_disk m -> (forall e, leaves_disk (h e)) -> leaves_disk (try_catch m h).
Proof.
  intros Hm Hh w. unfold try_catch. specialize (Hm w).
  destruct (m w) as [[a|e|] w']; simpl in *; [done| |done]. by rewrite Hh.
Qed.

Lemma leaves_disk_readFileSync p : leaves_disk (readFileSync p).
Proof. intros w. unfold readFileSync. by destruct (fs w !! p) as [[]|]. Qed.

Lemma leaves_disk_default_locals locals : leaves_disk (default_locals locals).
Proof. by destruct locals; intros w. Qed.

Lemma leaves_disk_report {A} origin (a : A) err :
  leaves_disk (log (LogError origin err);; mret a).
Proof. by intros w. Qed.

Lemma leaves_disk_for_each {A B} (f : A -> B -> M A) a bs :
  (forall a b, leaves_disk (f a b)) -> leaves_disk (for_each f a bs).
Proof.
  intros Hf. revert a. induction bs as [|b bs IH]; intros a; simpl.
  - apply leaves_disk_ret.
  - apply leaves_disk_bind; auto.
Qed.

Lemma leaves_disk_mrkdwn_vars data : leaves_disk (mrkdwn_vars data).
Proof.
  apply leaves_disk_for_each. intros a b w.
  by destruct (vars_step_pure a b w) as (r & -> & _).
Qed.

Section LeavesDiskWithInclude.

Variable inc : string -> option loc -> M value.
Hypothesis leaves_disk_inc : forall ref locals, leaves_disk (inc ref locals).

Lemma leaves_disk_render own t : leaves_disk (render inc own t).
Proof.
  induction t as [html|err|ref arg k IH]; simpl.
  - apply leaves_disk_ret.
  - by intros w.
  - apply leaves_disk_bind.
    + destruct arg; try apply leaves_disk_ret. by intros w.
    + intros locals. apply leaves_disk_bind; auto.
Qed.

Lemma leaves_disk_compile_slm file locals : leaves_disk (compile_slm inc file locals).
Proof.
  apply leaves_disk_bind; [apply leaves_disk_default_locals|]. intros l.
  apply leaves_disk_try_catch; [|intros; apply leaves_disk_report].
  apply leaves_disk_bind; [by intros w|]. intros present.
  destruct (negb present); [apply leaves_disk_ret|].
  apply leaves_disk_bind; [apply leaves_disk_readFileSync|]. intros src.
  apply leaves_disk_bind; [by intros w|]. intros _.
  apply leaves_disk_bind; [by intros w|]. intros _.
  apply leaves_disk_bind; [by intros w|]. intros seen.
  apply leaves_disk_bind; [apply leaves_disk_render | intros; apply leaves_disk_ret].
Qed.

Lemma leaves_disk_compile_md file locals : leaves_disk (compile_md inc file locals).
Proof.
  apply leaves_disk_bind; [apply leaves_disk_default_locals|]. intros l.
  apply leaves_disk_try_catch; [|intros; apply leaves_disk_report].
  apply leaves_disk_bind; [by intros w|]. intros present.
  destruct (negb present); [apply leaves_disk_ret|].
  apply leaves_disk_bind; [apply leaves_disk_readFileSync|]. intros md.
  apply leaves_disk_bind.
  - apply leaves_disk_for_each. intros a b.
    apply leaves_disk_bind; [apply leaves_disk_inc | intros; by intros w].
  - intros md1.
    apply leaves_disk_bind; [apply leaves_disk_mrkdwn_vars | intros; apply leaves_disk_ret].
Qed.

Lemma leaves_disk_compile_default file locals : leaves_disk (compile_default file locals).
Proof.
  apply leaves_disk_bind; [apply leaves_disk_default_locals|]. intros l.
  apply leaves_disk_try_catch; [|intros; apply leaves_disk_report].
  apply leaves_disk_bind; [by intros w|]. intros present.
  destruct (negb present); [apply leaves_disk_ret|].
  apply leaves_disk_bind; [apply leaves_disk_readFileSync | intros; apply leaves_disk_ret].
Qed.

Lemma leaves_disk_include_body ref locals : leaves_disk (include_body inc ref locals).
Proof.
  unfold include_body.
  apply leaves_disk_bind; [apply leaves_disk_default_locals|]. intros l.
  destruct (String.eqb (Path.extname ref) "").
  all: destruct (String.eqb _ "slm"); [apply leaves_disk_compile_slm|].
  all: destruct (String.eqb _ "md"); [apply leaves_disk_compile_md|].
  all: destruct (String.eqb _ "default"); [apply leaves_disk_compile_default|].
  all: apply leaves_disk_bind; [apply leaves_disk_compile_default|]; intros data.
  all: by intros w.
Qed.

End LeavesDiskWithInclude.

Lemma leaves_disk_include fuel ref locals : leaves_disk (include fuel ref locals).
Proof.
  revert ref locals. induction fuel as [|fuel IH]; intros ref locals; simpl.
  - by intros w.
  - by apply leaves_disk_include_body.
Qed.

(** X2.  Compiling reads the disk and never writes it: after [include], and
    after each of the three compilers, whatever they return and however deep
    the includes go, every path of the disk holds what it held before.  Only
    [write] changes the disk. *)
Theorem compiling_leaves_disk (fuel : nat) (file : string) (locals : option loc)
    (w : world) :
  fs (include fuel file locals w).2 = fs w
  /\ fs (compile_slm (include fuel) file locals w).2 = fs w
  /\ fs (compile_md (include fuel) file locals w).2 = fs w
  /\ fs (compile_default file locals w).2 = fs w.
Proof.
  repeat split.
  - apply leaves_disk_include.
  - apply leaves_disk_compile_slm. intros. apply leaves_disk_include.
  - apply leaves_disk_compile_md. intros. apply leaves_disk_include.
  - apply leaves_disk_compile_default.
Qed.

(** *** Includes that never end, and compiles that fail *)

(** The template compiler on a file that is there, for any locals object. *)
Lemma compile_slm_read inc file src l w :
  fs w !! file = Some (File src) ->
  compile_slm inc file (Some l) w
  = try_catch
      (data ← render inc l
                (slm src file (opt_base_path options)
                   (template_locals (default ∅ (heap w !! l))));
       mret (VStr (if truthy (config_prop options "beautify")
                   then beautify (config_prop options "beautify") (VStr data)
                   else data)))
      (fun err => log (LogError "compile.slm" err);; mret VUndefined)
      (World (fs w)
         (<[l := template_locals (default ∅ (heap w !! l))]> (heap w))
         (console w)).
Proof.
  intros Hf. unfold compile_slm. unfold_monad.
  rewrite (existsSync_present file (File src)) by done.
  cbn [negb]. cbv beta iota. unfold readFileSync. rewrite Hf. cbv beta iota.
  unfold object_assign, set_prop, read_obj, update_obj. cbv beta iota.
  cbn [heap fs console].
  rewrite !lookup_insert_eq. cbn [default]. rewrite insert_insert_eq. done.
Qed.

(** The console is only ever added to. *)
Definition grows {A} (m : M A) : Prop :=
  forall w, exists more, console (m w).2 = (console w ++ more)%list.

Lemma grows_quiet {A} (m : M A) : (forall w, console (m w).2 = console w) -> grows m.
Proof. intros H w. exists []. by rewrite H, app_nil_r. Qed.

Lemma grows_ret {A} (a : A) : grows (mret a).
Proof. by apply grows_quiet. Qed.

Lemma grows_log entry : grows (log entry).
Proof. intros w. by exists [entry]. Qed.

Lemma grows_bind {A B} (m : M A) (f : A -> M B) :
  grows m -> (forall a, grows (f a)) -> grows (m ≫= f).
Proof.
  intros Hm Hf w. unfold mbind, M_bind. destruct (Hm w) as [more Hmore].
  destruct (m w) as [[a|e|] w']; simpl in *; [|by eexists..].
  destruct (Hf a w') as [more' Hmore']. exists (more ++ more')%list.
  by rewrite Hmore', Hmore, List.app_assoc.
Qed.

Lemma grows_try_catch {A} (m : M A) (h : string -> M A) :
  grows m -> (forall e, grows (h e)) -> grows (try_catch m h).
Proof.
  intros Hm Hh w. unfold try_catch. destruct (Hm w) as [more Hmore].
  destruct (m w) as [[a|e|] w']; simpl in *; [by eexists | | by eexists].
  destruct (Hh e w') as [more' Hmore']. exists (more ++ more')%list.
  by rewrite Hmore', Hmore, List.app_assoc.
Qed.

Lemma grows_readFileSync p : grows (readFileSync p).
Proof.
  apply grows_quiet. intros w. unfold readFileSync. by destruct (fs w !! p) as [[]|].
Qed.

Lemma grows_default_locals locals : grows (default_locals locals).
Proof. apply grows_quiet. by destruct locals. Qed.

Lemma grows_report {A} origin (a : A) err : grows (log (LogError origin err);; mret a).
Proof. apply grows_bind; [apply grows_log | intros; apply grows_ret]. Qed.

Lemma grows_for_each {A B} (f : A -> B -> M A) a bs :
  (forall a b, grows (f a b)) -> grows (for_each f a bs).
Proof.
  intros Hf. revert a. induction bs as [|b bs IH]; intros a; simpl.
  - apply grows_ret.
  - apply grows_bind; auto.
Qed.

Lemma grows_mrkdwn_vars data : grows (mrkdwn_vars data).
Proof.
  apply grows_for_each. intros a b. apply grows_quiet. intros w.
  by destruct (vars_step_pure a b w) as (r & -> & _).
Qed.

Section GrowsWithInclude.

Variable inc : string -> option loc -> M value.
Hypothesis grows_inc : forall ref locals, grows (inc ref locals).

Lemma grows_render own t : grows (render inc own t).
Proof.
  induction t as [html|err|ref arg k IH]; simpl.
  - apply grows_ret.
  - by apply grows_quiet.
  - apply grows_bind.
    + destruct arg; try apply grows_ret. by apply grows_quiet.
    + intros locals. apply grows_bind; auto.
Qed.

Lemma grows_compile_slm file locals : grows (compile_slm inc file locals).
Proof.
  apply grows_bind; [apply grows_default_locals|]. intros l.
  apply grows_try_catch; [|intros; apply grows_report].
  apply grows_bind; [by apply grows_quiet|]. intros present.
  destruct (negb present); [apply grows_ret|].
  apply grows_bind; [apply grows_readFileSync|]. intros src.
  apply grows_bind; [by apply grows_quiet|]. intros _.
  apply grows_bind; [by apply grows_quiet|]. intros _.
  apply grows_bind; [by apply grows_quiet|]. intros seen.
  apply grows_bind; [apply grows_render | intros; apply grows_ret].
Qed.

Lemma grows_compile_md file locals : grows (compile_md inc file locals).
Proof.
  apply grows_bind; [apply grows_default_locals|]. intros l.
  apply grows_try_catch; [|intros; apply grows_report].
  apply grows_bind; [by apply grows_quiet|]. intros present.
  destruct (negb present); [apply grows_ret|].
  apply grows_bind; [apply grows_readFileSync|]. intros md.
  apply grows_bind.
  - apply grows_for_each. intros a b.
    apply grows_bind; [apply grows_inc | intros; by apply grows_quiet].
  - intros md1.
    apply grows_bind; [apply grows_mrkdwn_vars | intros; apply grows_ret].
Qed.

Lemma grows_compile_default file locals : grows (compile_default file locals).
Proof.
  apply grows_bind; [apply grows_default_locals|]. intros l.
  apply grows_try_catch; [|intros; apply grows_report].
  apply grows_bind; [by apply grows_quiet|]. intros present.
  destruct (negb present); [apply grows_ret|].
  apply grows_bind; [apply grows_readFileSync | intros; apply grows_ret].
Qed.

Lemma grows_include_body ref locals : grows (include_body inc ref locals).
Proof.
  unfold include_body.
  apply grows_bind; [apply grows_default_locals|]. intros l.
  destruct (String.eqb (Path.extname ref) "").
  all: destruct (String.eqb _ "slm"); [apply grows_compile_slm|].
  all: destruct (String.eqb _ "md"); [apply grows_compile_md|].
  all: destruct (String.eqb _ "default"); [apply grows_compile_default|].
  all: apply grows_bind; [apply grows_compile_default|]; intros data.
  all: apply grows_bind; [apply grows_log | intros; apply grows_ret].
Qed.

End GrowsWithInclude.

Lemma grows_include fuel ref locals : grows (include fuel ref locals).
Proof.
  revert ref locals. induction fuel as [|fuel IH]; intros ref locals; simpl.
  - by apply grows_quiet.
  - by apply grows_include_body.
Qed.

Lemma grows_keeps_entry {A} (m : M A) entry w :
  grows m -> In entry (console w) -> In entry (console (m w).2).
Proof. intros Hm Hin. destruct (Hm w) as [more ->]. apply in_or_app. by left. Qed.

(** X3.  There is no guard against a template that includes itself.  When
    the template a reference resolves to starts by including that same
    reference, each include compiles the file again, one inside the other,
    until a call finds the call stack full.  That error is caught by the
    compile it occurs in and reported on the console, so [include] still
    returns a value, whatever room the stack had; with room for this one call
    only the value is [undefined].  The disk is not touched. *)
Theorem self_include_exhausts_stack (fuel : nat) (ref src : string)
    (arg : include_arg) (k : value -> template) (locals : option loc) (w : world) :
  Path.extname ref = "" ->
  (forall o, slm src (Path.join [opt_source options; ref +:+ ".slm"])
               (opt_base_path options) o
             = CallInclude ref arg k) ->
  fs w !! Path.join [opt_source options; ref +:+ ".slm"] = Some (File src) ->
  exists v w',
    include (S fuel) ref locals w = (Ok v, w')
    /\ In (LogError "compile.slm" stack_exhausted) (console w')
    /\ fs w' = fs w
    /\ (fuel = 0 -> v = VUndefined).
Proof.
  intros Hext Hengine.
  set (file := Path.join [opt_source options; ref +:+ ".slm"]) in *.
  set (entry := LogError "compile.slm" stack_exhausted).
  assert (forall n ls0 w0,
            fs w0 !! file = Some (File src) ->
            (forall ls w2, fs w2 = fs w0 ->
               (include n ref ls w2 = (Throw stack_exhausted, w2) /\ n = 0)
               \/ exists v w3,
                    include n ref ls w2 = (Ok v, w3) /\ In entry (console w3)) ->
            exists v w',
              include (S n) ref ls0 w0 = (Ok v, w')
              /\ In entry (console w')
              /\ (n = 0 -> v = VUndefined)) as Hstep.
  { intros n ls0 w0 Hf0 Hinner.
    cbn [include]. unfold include_body. rewrite Hext. cbn [String.eqb].
    change (Js.replace (opt_ext options) "." "") with "slm". cbn [String.eqb].
    change (opt_ext options) with ".slm". fold file.
    assert (forall l w1, fs w1 = fs w0 ->
              exists v w',
                compile_slm (include n) file (Some l) w1 = (Ok v, w')
                /\ In entry (console w')
                /\ (n = 0 -> v = VUndefined)) as Hcompile.
    { intros l w1 Hw1. rewrite (compile_slm_read _ _ src) by (by rewrite Hw1).
      rewrite Hengine. unfold try_catch. cbn [render].
      assert (forall v w3,
                In entry (console w3) ->
                exists v' w',
                  match
                    match render (include n) l (k v) w3 with
                    | (Ok data, w4) =>
                        (Ok (VStr (if truthy (config_prop options "beautify")
                                   then beautify (config_prop options "beautify")
                                          (VStr data)
                                   else data)), w4)
                    | (Throw e, w4) => (Throw e, w4)
                    | (OutOfFuel, w4) => (OutOfFuel, w4)
                    end
                  with
                  | (Throw e, w4) =>
                      (log (LogError "compile.slm" e);; mret VUndefined) w4
                  | r => r
                  end = (Ok v', w')
                  /\ In entry (console w')) as Hrest.
      { intros v w3 Hin.
        pose proof (grows_keeps_entry (render (include n) l (k v)) _ w3
                      (grows_render _ (grows_include n) l (k v)) Hin) as Hkept.
        pose proof (completes_render _ (completes_include n) l (k v) w3) as Hfuel.
        destruct (render (include n) l (k v) w3) as [[data|e|] w4];
          cbn [fst snd] in *; [| |done].
        - unfold mret, M_ret. by eexists _, _.
        - unfold mbind, M_bind, log, mret, M_ret. cbv beta iota.
          eexists _, _. split; [reflexivity|]. cbn [console].
          apply in_or_app. by left. }
      destruct arg as [|fresh_obj|];
        unfold mbind, M_bind, alloc, update_obj, mret, M_ret; cbv beta iota;
        cbn [fs heap console].
      all: match goal with |- context [include _ _ ?ls ?w2] =>
             destruct (Hinner ls w2) as [[Heq ->] | (v & w3 & Heq & Hin)];
             [cbn [fs]; by rewrite ?Hw1 | rewrite Heq | rewrite Heq] end.
      all: try (unfold mbind, M_bind, log, mret, M_ret; cbv beta iota;
                eexists _, _; split; [reflexivity|]; split; [|done];
                cbn [console]; apply in_or_app; right; by left).
      all: destruct (Hrest v w3 Hin) as (v' & w' & Hres & Hin').
      all: exists v', w'; split; [exact Hres|]; split; [done|].
      all: intros ->; cbn [include] in Heq; discriminate Heq. }
    unfold mbind, M_bind. destruct ls0 as [l|]; cbn [default_locals].
    - cbn [mret M_ret]. cbv beta iota. by apply Hcompile.
    - unfold alloc. cbv beta iota. by apply Hcompile. }
  assert (forall n ls0 w0,
            fs w0 !! file = Some (File src) ->
            exists v w',
              include (S n) ref ls0 w0 = (Ok v, w')
              /\ In entry (console w')
              /\ (n = 0 -> v = VUndefined)) as Hall.
  { induction n as [|n IH]; intros ls0 w0 Hf0; apply Hstep; try done.
    - intros ls w2 _. by left.
    - intros ls w2 Hw2. right.
      destruct (IH ls w2) as (v & w3 & Heq & Hin & _); [by rewrite Hw2|].
      by exists v, w3. }
  intros Hf. destruct (Hall fuel locals w Hf) as (v & w' & Hrun & Hin & Hzero).
  exists v, w'. split; [done|]. split; [done|]. split; [|done].
  pose proof (leaves_disk_include (S fuel) ref locals w) as Hdisk.
  by rewrite Hrun in Hdisk.
Qed.

(** X4.  A directory where a file is expected is a failure, not a missing
    file: each of the three compilers catches the read error, reports it on
    the console and returns [undefined], where a path with nothing at it gives
    the empty string and no report.  Disk and objects are left as they were. *)
Theorem compilers_on_directory (inc : string -> option loc -> M value)
    (file : string) (entries : list string) (locals : loc) (w : world) :
  fs w !! file = Some (Dir entries) ->
  let failed origin (r : outcome value * world) :=
    exists err,
      r = (Ok VUndefined,
           World (fs w) (heap w) (console w ++ [LogError origin err])) in
  failed "compile.slm" (compile_slm inc file (Some locals) w)
  /\ failed "compile.md" (compile_md inc file (Some locals) w)
  /\ failed "compile.default" (compile_default file (Some locals) w).
Proof.
  intros Hf failed. unfold failed, compile_slm, compile_md, compile_default.
  unfold_monad. rewrite (existsSync_present file (Dir entries)) by done.
  cbn [negb]. cbv beta iota. unfold readFileSync. rewrite Hf. cbv beta iota.
  unfold log. cbv beta iota. repeat split; by eexists.
Qed.

(** X5.  A template that fails when it is parsed or rendered costs the
    compile its output and nothing else: compile.slm reports the error and
    returns [undefined], and the locals object has by then been given the
    configuration and the include function. *)
Theorem compile_slm_template_failure (inc : string -> option loc -> M value)
    (file src err : string) (l : loc) (o : obj) (w : world) :
  fs w !! file = Some (File src) ->
  heap w !! l = Some o ->
  slm src file (opt_base_path options) (template_locals o) = Raise err ->
  compile_slm inc file (Some l) w
  = (Ok VUndefined,
     World (fs w) (<[l := template_locals o]> (heap w))
       (console w ++ [LogError "compile.slm" err])).
Proof.
  intros Hf Hl Hraise. rewrite (compile_slm_present _ _ src l o) by done.
  rewrite Hraise. done.
Qed.

(** X6.  A reference whose extension has no compiler of its own is passed
    through as it is: [include] returns the text of the file under the source
    root, the empty string when nothing is there, [undefined] when a directory
    is, and in each case a notice naming the extension is the last thing
    reported.  The disk is not changed. *)
Theorem include_unregistered_extension (fuel : nat) (ref : string)
    (locals : option loc) (w : world) :
  Path.extname ref <> "" ->
  Js.replace (Path.extname ref) "." "" <> "slm" ->
  Js.replace (Path.extname ref) "." "" <> "md" ->
  Js.replace (Path.extname ref) "." "" <> "default" ->
  let r := include (S fuel) ref locals w in
  r.1 = match fs w !! Path.join [opt_source options; ref] with
        | Some (File text) => Ok (VStr text)
        | Some (Dir _) => Ok VUndefined
        | None => Ok (VStr "")
        end
  /\ fs r.2 = fs w
  /\ exists earlier,
       console r.2 = (console w ++ earlier ++ [LogNotify (Path.extname ref)])%list.
Proof.
  intros Hext Hslm Hmd Hdefault r. subst r.
  set (file := Path.join [opt_source options; ref]).
  cbn [include]. unfold include_body. fold file.
  apply String.eqb_neq in Hext, Hslm, Hmd, Hdefault.
  rewrite Hext, Hslm, Hmd, Hdefault.
  unfold compile_default. unfold_monad. unfold alloc, existsSync, readFileSync, log.
  destruct locals as [l|]; cbv beta iota; cbn [fs heap console].
  all: destruct (fs w !! file) as [[text|entries]|] eqn:Hf.
  all: rewrite ?bool_decide_eq_true_2 by (by eexists).
  all: rewrite ?bool_decide_eq_false_2 by (by intros [? ?]).
  all: cbn [negb]; cbv beta iota; cbn [fs heap console fst snd].
  all: fold file; rewrite ?Hf; cbv beta iota; cbn [fs heap console fst snd].
  all: split; [done|]; split; [done|].
  all: try (by exists []).
  all: eexists [_]; by rewrite <- List.app_assoc.
Qed.

(** *** The tree walk *)

(** The file or directory [walk(file, dir)] works on. *)
Definition walk_path_of (file : string) (dir : option string) : string :=
  let folder := match dir with
                | Some d => if String.eqb d "" then opt_views options else d
                | None => opt_views options
                end in
  if Js.includes file folder then file else Path.join [folder; file].

Lemma walk_unfold fuel file dir :
  walk (S fuel) file dir
  = if Js.includes (walk_path_of file dir) (opt_ext options) then
      _ ← main fuel (walk_path_of file dir); mret tt
    else
      try_catch
        (files ← readdirSync (walk_path_of file dir);
         for_each_reversed
           (fun child => walk fuel child (Some (walk_path_of file dir))) files)
        (fun err => log (LogError "walk" err)).
Proof. reflexivity. Qed.

(** X7.  What [walk] can neither compile nor list it reports and passes over:
    for a path that does not hold the extension and is not a directory (a
    plain file such as an image or a readme, or nothing at all), [walk]
    reports one error on the console, changes nothing else and ends normally,
    so the rest of the tree is still walked. *)
Theorem walk_reports_what_it_cannot_list (fuel : nat) (file : string)
    (dir : option string) (w : world) :
  Js.includes (walk_path_of file dir) ".slm" = false ->
  (forall entries, fs w !! walk_path_of file dir <> Some (Dir entries)) ->
  exists err,
    walk (S fuel) file dir w
    = (Ok tt, World (fs w) (heap w) (console w ++ [LogError "walk" err])).
Proof.
  intros Hext Hdir. rewrite walk_unfold.
  change (opt_ext options) with ".slm". rewrite Hext.
  unfold try_catch, mbind, M_bind, readdirSync.
  destruct (fs w !! walk_path_of file dir) as [[text|entries]|] eqn:Hf.
  - by eexists.
  - by destruct (Hdir entries).
  - by eexists.
Qed.

Lemma bind_assoc_run {A B C} (m : M A) (f : A -> M B) (g : B -> M C) w :
  ((m ≫= f) ≫= g) w = (m ≫= (fun a => f a ≫= g)) w.
Proof. unfold mbind, M_bind. by destruct (m w) as [[a|e|] w']. Qed.

Lemma bind_ret_run {A} (m : M A) w : (m ≫= mret) w = m w.
Proof. unfold mbind, M_bind, mret, M_ret. by destruct (m w) as [[a|e|] w']. Qed.

Lemma bind_ext_run {A B} (m : M A) (f g : A -> M B) w :
  (forall a w', f a w' = g a w') -> (m ≫= f) w = (m ≫= g) w.
Proof. intros H. unfold mbind, M_bind. destruct (m w) as [[a|e|] w']; auto. Qed.

Lemma for_each_app_run {A B} (f : A -> B -> M A) a l1 l2 w :
  for_each f a (l1 ++ l2) w = (a' ← for_each f a l1; for_each f a' l2) w.
Proof.
  revert a w. induction l1 as [|b l1 IH]; intros a w; simpl.
  - done.
  - rewrite bind_assoc_run. apply bind_ext_run. intros a' w'. apply IH.
Qed.

(** The descending loop is the ascending one over the reversed list. *)
Lemma for_each_reversed_run {B} (f : B -> M unit) l w :
  for_each_reversed f l w = for_each (fun _ b => f b) tt (rev l) w.
Proof.
  revert w. induction l as [|b l IH]; intros w; simpl; [done|].
  rewrite for_each_app_run. simpl. unfold mbind, M_bind, mret, M_ret.
  rewrite IH. destruct (for_each _ tt (rev l) w) as [[[]|e|] w']; [|done..].
  by destruct (f b w') as [[[]|e|] w''].
Qed.

Lemma never_throws_for_each {A B} (f : A -> B -> M A) a l :
  (forall a b, never_throws (f a b)) -> never_throws (for_each f a l).
Proof.
  intros Hf. revert a. induction l as [|b l IH]; intros a; simpl.
  - apply never_throws_ret.
  - apply never_throws_bind; auto.
Qed.

(** X8.  [walk] goes through a directory from the last entry of its listing
    to the first: on a directory (whose path does not hold the extension) it
    walks each entry in turn in the reverse of the listed order, each with
    the directory as its base, and stops early only when the budget runs out. *)
Theorem walk_children_in_reverse (fuel : nat) (file : string) (dir : option string)
    (entries : list string) (w : world) :
  Js.includes (walk_path_of file dir) ".slm" = false ->
  fs w !! walk_path_of file dir = Some (Dir entries) ->
  walk (S fuel) file dir w
  = for_each (fun _ child => walk fuel child (Some (walk_path_of file dir)))
      tt (rev entries) w.
Proof.
  intros Hext Hf. rewrite walk_unfold.
  change (opt_ext options) with ".slm". rewrite Hext.
  unfold try_catch. unfold mbind at 1. unfold M_bind, readdirSync. rewrite Hf.
  rewrite for_each_reversed_run.
  pose proof (never_throws_for_each
                (fun (_ : unit) child => walk fuel child (Some (walk_path_of file dir)))
                tt (rev entries)
                (fun _ child => never_throws_walk fuel child _) w) as Hloop.
  destruct (for_each _ tt (rev entries) w) as [[[]|e|] w']; [done| |done].
  by destruct (Hloop e).
Qed.

(** *** The writer *)

(** The values of [dist] and of [data] when [write(file, data)] comes to
    write. *)
Definition write_dist (file : string) : string :=
  Js.replace (Js.replace file (opt_ext options) ".html")
    (opt_views options) (opt_dist options).

Definition write_data (data : value) : value :=
  if truthy (config_prop options "beautify")
  then VStr (beautify (config_prop options "beautify") data)
  else data.

Lemma write_unfold file data :
  write file data
  = try_catch
      (present ← existsSync (Path.dirname (write_dist file));
       (if negb present then mkdirSync (Path.dirname (write_dist file)) else mret tt);;
       writeFileSync (write_dist file) (write_data data);;
       log (LogDescribe file (write_dist file));;
       mret (VStr (write_dist file)))
      (fun err => log (LogError "write" err);; mret VUndefined).
Proof. reflexivity. Qed.

Lemma find_first_head pat s :
  Js.starts_with pat s = true ->
  Js.find_first pat s = Some ("", Js.drop (String.length pat) s).
Proof. intros H. destruct s; simpl; by rewrite H. Qed.

(** The extension is found where it first stands. *)
Lemma find_first_ext s t :
  Js.includes s ".slm" = false ->
  Js.find_first ".slm" (s +:+ ".slm" +:+ t) = Some (s, t).
Proof.
  induction s as [|c s IH]; intros H.
  - rewrite app_empty_l, find_first_head by done. done.
  - cbn [Js.includes] in H. apply orb_false_elim in H as [Hhere Hlater].
    rewrite app_cons. cbn [Js.find_first].
    assert (Js.starts_with ".slm" (String c (s +:+ ".slm" +:+ t)) = false) as ->.
    { destruct s as [|c1 [|c2 [|c3 s]]]; simpl in *;
        rewrite ?andb_false_r; try done. }
    by rewrite (IH Hlater).
Qed.

(** The destination of a view: the views directory gives way to the
    distribution directory, the extension to [.html]. *)
Lemma write_dist_of_view name :
  Js.includes (opt_views options +:+ name) ".slm" = false ->
  has_char "$"%char (opt_dist options) = false ->
  write_dist (opt_views options +:+ name +:+ ".slm")
  = opt_dist options +:+ name +:+ ".html".
Proof.
  intros Hext Hdollar. unfold write_dist. change (opt_ext options) with ".slm".
  assert (Js.replace (opt_views options +:+ name +:+ ".slm") ".slm" ".html"
          = opt_views options +:+ name +:+ ".html") as ->.
  { assert (opt_views options +:+ name +:+ ".slm"
            = (opt_views options +:+ name) +:+ ".slm" +:+ "") as Hshape
      by (by rewrite app_assoc).
    unfold Js.replace. rewrite Hshape at 1. rewrite (find_first_ext _ "" Hext).
    by rewrite app_assoc. }
  unfold Js.replace. rewrite find_first_head by apply starts_with_app.
  rewrite drop_app, get_substitution_plain by done. done.
Qed.

Lemma add_entry_other parent name files p :
  p <> parent -> add_entry parent name files !! p = files !! p.
Proof.
  intros Hp. unfold add_entry. destruct (files !! parent) as [[|es]|]; try done.
  destruct (bool_decide (name ∈ es)); [done|]. by rewrite lookup_insert_ne.
Qed.

Lemma add_entry_dir parent name files es :
  files !! parent = Some (Dir es) ->
  exists es', add_entry parent name files !! parent = Some (Dir es').
Proof.
  intros H. unfold add_entry. rewrite H.
  destruct (bool_decide (name ∈ es)); [by eexists|].
  rewrite lookup_insert_eq. by eexists.
Qed.

(** [write] when the directory of the destination is there. *)
Lemma write_into_directory file data text es w :
  fs w !! Path.dirname (write_dist file) = Some (Dir es) ->
  (forall es', fs w !! write_dist file <> Some (Dir es')) ->
  write_data data = VStr text ->
  write file data w
  = (Ok (VStr (write_dist file)),
     World (<[write_dist file := File text]>
              (add_entry (Path.dirname (write_dist file))
                 (Path.basename1 (write_dist file)) (fs w)))
       (heap w) (console w ++ [LogDescribe file (write_dist file)])).
Proof.
  intros Hdir Hfile Hdata. rewrite write_unfold. unfold_monad.
  rewrite (existsSync_present _ (Dir es)) by done. cbn [negb]. cbv beta iota.
  unfold writeFileSync. rewrite Hdata, Hdir.
  destruct (fs w !! write_dist file) as [[c|es']|] eqn:Hf; [|by destruct (Hfile es')|];
    done.
Qed.

(** X9.  A view is written where the distribution tree mirrors it: for a
    file of the views directory ending in the extension (which occurs nowhere
    earlier in its path), with no dollar sign in the distribution path and
    the destination's directory in place, [write] returns the path with the
    views directory replaced by the distribution directory and the extension
    by [.html], puts the data (beautified when a beautifier is configured)
    there, reports it, and changes nothing else on the disk but the listing of
    that directory. *)
Theorem write_maps_view_to_dist (name text : string) (data : value)
    (entries : list string) (w : world) :
  let file := opt_views options +:+ name +:+ ".slm" in
  let dist := opt_dist options +:+ name +:+ ".html" in
  Js.includes (opt_views options +:+ name) ".slm" = false ->
  has_char "$"%char (opt_dist options) = false ->
  fs w !! Path.dirname dist = Some (Dir entries) ->
  (forall es, fs w !! dist <> Some (Dir es)) ->
  write_data data = VStr text ->
  let r := write file data w in
  r.1 = Ok (VStr dist)
  /\ fs r.2 !! dist = Some (File text)
  /\ console r.2 = (console w ++ [LogDescribe file dist])%list
  /\ heap r.2 = heap w
  /\ forall p, p <> dist -> p <> Path.dirname dist -> fs r.2 !! p = fs w !! p.
Proof.
  intros file dist Hext Hdollar Hdir Hfile Hdata r.
  pose proof (write_dist_of_view name Hext Hdollar) as Hdist. fold file dist in Hdist.
  subst r. rewrite <- Hdist in *.
  rewrite (write_into_directory file data text entries w Hdir Hfile Hdata).
  cbn [fst snd fs heap console].
  split; [done|]. split; [by rewrite lookup_insert_eq|]. split; [done|]. split; [done|].
  intros p Hp Hpd. rewrite lookup_insert_ne by done. by apply add_entry_other.
Qed.

(** X10.  [write] makes the directory of the destination when only that one
    level is missing: with the directory above it in place, the destination's
    directory is created, the data is written into it and the new directory
    lists the file. *)
Theorem write_creates_missing_directory (file text : string) (data : value)
    (entries : list string) (w : world) :
  let dist := write_dist file in
  fs w !! dist = None ->
  fs w !! Path.dirname dist = None ->
  fs w !! Path.dirname (Path.dirname dist) = Some (Dir entries) ->
  write_data data = VStr text ->
  let r := write file data w in
  r.1 = Ok (VStr dist)
  /\ fs r.2 !! dist = Some (File text)
  /\ fs r.2 !! Path.dirname dist = Some (Dir [Path.basename1 dist]).
Proof.
  intros dist Hfile Hdir Hup Hdata r.
  assert (dist <> Path.dirname dist) as Hne1.
  { intros Heq. rewrite <- Heq in Hup. rewrite <- Heq in Hup. congruence. }
  assert (dist <> Path.dirname (Path.dirname dist)) as Hne2 by congruence.
  assert (Path.dirname dist <> Path.dirname (Path.dirname dist)) as Hne3 by congruence.
  subst r. rewrite write_unfold. fold dist. unfold_monad.
  rewrite (existsSync_absent _ _ Hdir). cbn [negb]. cbv beta iota.
  unfold mkdirSync. rewrite Hdir, Hup. unfold set_fs. cbv beta iota.
  unfold writeFileSync. rewrite Hdata. cbn [fs heap console].
  rewrite lookup_insert_ne by done. rewrite add_entry_other by done. rewrite Hfile.
  rewrite lookup_insert_eq. unfold set_fs, log. cbv beta iota. cbn [fst snd fs].
  split; [done|]. split; [by rewrite lookup_insert_eq|].
  rewrite lookup_insert_ne by done.
  unfold add_entry at 1. rewrite lookup_insert_eq.
  rewrite bool_decide_eq_false_2 by apply not_elem_of_nil.
  by rewrite lookup_insert_eq.
Qed.

(** X11.  [write] makes one directory, never a chain of them: when the
    destination's directory is missing and the directory above it is missing
    too (or is a file), nothing is written; [write] reports the failure and
    returns [undefined], and the disk is as it was. *)
Theorem write_makes_no_directory_chain (file : string) (data : value) (w : world) :
  let dist := write_dist file in
  fs w !! Path.dirname dist = None ->
  (forall es, fs w !! Path.dirname (Path.dirname dist) <> Some (Dir es)) ->
  exists err,
    write file data w
    = (Ok VUndefined,
       World (fs w) (heap w) (console w ++ [LogError "write" err])).
Proof.
  intros dist Hdir Hup. rewrite write_unfold. fold dist. unfold_monad.
  rewrite (existsSync_absent _ _ Hdir). cbn [negb]. cbv beta iota.
  unfold mkdirSync. rewrite Hdir.
  destruct (fs w !! Path.dirname (Path.dirname dist)) as [[c|es]|] eqn:Hf;
    [|by destruct (Hup es)|]; by eexists.
Qed.

(** *** Markdown without and with its micro-syntaxes *)

Lemma match_token_open open cls s m :
  Js.match_token open cls s = Some m -> Js.starts_with open s = true.
Proof. unfold Js.match_token. by destruct (Js.starts_with open s). Qed.

Lemma match_all_none open cls data :
  Js.includes data open = false -> Js.match_all open cls data = [].
Proof.
  intros H. destruct (Js.match_all open cls data) as [|m l] eqn:E; [done|].
  assert (In m (Js.match_all_go open cls 0 data)) as Hin by (unfold Js.match_all in E; rewrite E; by left).
  apply match_all_go_in in Hin as (before & rest & -> & Hm).
  apply match_token_open, starts_with_spec in Hm as [t ->].
  assert (Js.includes (before +:+ open +:+ t) open = true) as Hocc
    by (apply includes_spec; by exists before, t).
  congruence.
Qed.

Lemma includes_longer data a b :
  Js.includes data b = false -> Js.includes data (a +:+ b) = false.
Proof.
  intros H. destruct (Js.includes data (a +:+ b)) eqn:E; [|done].
  apply includes_spec in E as (x & y & ->).
  assert (Js.includes (x +:+ (a +:+ b) +:+ y) b = true) as Hocc.
  { apply includes_spec. exists (x +:+ a), y. by rewrite !app_assoc. }
  congruence.
Qed.

(** X12.  Markdown that holds no micro-syntax comes out as the renderer made
    it: when the rendered text of a file has no [{{] in it, compile.md returns
    exactly that text, calls no include, reports nothing and changes nothing. *)
Theorem compile_md_plain_document (inc : string -> option loc -> M value)
    (file src : string) (locals : loc) (w : world) :
  fs w !! file = Some (File src) ->
  Js.includes (marked (config_prop options "marked") src) "{{" = false ->
  compile_md inc file (Some locals) w
  = (Ok (VStr (marked (config_prop options "marked") src)), w).
Proof.
  intros Hf Hplain. rewrite (compile_md_present _ _ src) by done.
  unfold mrkdwn_slm, mrkdwn_vars.
  rewrite (match_all_none "include{{") by (by apply (includes_longer _ "include" "{{")).
  unfold try_catch, mbind, M_bind. cbn [for_each]. unfold mret, M_ret.
  cbv beta iota. rewrite (match_all_none "{{") by done. done.
Qed.

(** X13.  A fragment with no dollar sign in it is put in as it is: when the
    include of a directive returns such a text, the include pass puts that
    text, character for character, in place of the first occurrence of the
    directive. *)
Theorem include_pass_inserts_plain_fragment (inc : string -> option loc -> M value)
    (data element fragment : string) (w w' : world) :
  inc (include_file element) None w = (Ok (VStr fragment), w') ->
  has_char "$"%char fragment = false ->
  slm_step inc data element w
  = (Ok (Js.replace_literal data element fragment), w').
Proof.
  intros Hinc Hplain. unfold slm_step. unfold_monad. rewrite Hinc.
  rewrite (replace_value_text _ _ _ fragment) by done. by rewrite replace_plain.
Qed.

(** X14.  An include that failed shows in the page: when the include of a
    directive returns [undefined] (the included file could not be compiled),
    the include pass puts the word [undefined] in place of the directive and
    goes on. *)
Theorem include_pass_prints_undefined (inc : string -> option loc -> M value)
    (data element : string) (w w' : world) :
  inc (include_file element) None w = (Ok VUndefined, w') ->
  slm_step inc data element w
  = (Ok (Js.replace_literal data element "undefined"), w').
Proof.
  intros Hinc. unfold slm_step. unfold_monad. rewrite Hinc.
  rewrite (replace_value_text _ _ _ "undefined") by done. by rewrite replace_plain.
Qed.

(** X15.  A path that ends on a key the configuration does not hold is no
    failure: when all the keys of a token's path but the last lead to a plain
    object, and that object has no property of its own under the last key nor
    inherits one (the key is no property of [Object.prototype]), the variable
    pass puts the word [undefined] in place of the token. *)
Theorem variable_missing_leaf_prints_undefined (data element : string)
    (pre : list string) (key : string) (fields : gmap string value) (w : world) :
  Js.includes element "this." = true ->
  variable_path element = (pre ++ [key])%list ->
  walk_path (VObj config) pre = Ok (VObj fields) ->
  fields !! key = None ->
  inherited_key key = false ->
  vars_step data element w
  = (Ok (Js.replace_literal data element "undefined"), w).
Proof.
  intros Hthis Hpath Hpre Hkey Hown. unfold vars_step. rewrite Hthis, Hpath.
  unfold_monad. cbn [opt_config options]. rewrite walk_path_app, Hpre.
  cbn [walk_path get_prop]. rewrite Hkey, Hown.
  rewrite (replace_value_text _ _ _ "undefined") by done.
  by rewrite replace_plain.
Qed.

Fixpoint all_chars (p : ascii -> bool) (s : string) : bool :=
  match s with
  | EmptyString => true
  | String c s' => p c && all_chars p s'
  end.

Lemma span_all p s t :
  all_chars p s = true ->
  match t with EmptyString => True | String c _ => p c = false end ->
  Js.span p (s +:+ t) = (s, t).
Proof.
  intros Hs Ht. induction s as [|c s IH].
  - rewrite app_empty_l. destruct t as [|c t]; simpl; [done|]. by rewrite Ht.
  - simpl in Hs. apply andb_true_iff in Hs as [Hc Hs].
    rewrite app_cons. simpl. by rewrite Hc, (IH Hs).
Qed.

Lemma all_chars_no p x s : p x = false -> all_chars p s = true -> has_char x s = false.
Proof.
  intros Hx. induction s as [|c s IH]; [done|]. simpl.
  intros [Hc Hs]%andb_true_iff. rewrite (IH Hs), orb_false_r.
  apply Ascii.eqb_neq. intros ->. congruence.
Qed.

Lemma match_all_go_skip open cls s n :
  String.length s <= n -> Js.match_all_go open cls n s = [].
Proof.
  revert n. induction s as [|c s IH]; intros n Hn; simpl; [done|].
  destruct n as [|n]; simpl in Hn; [lia|]. apply IH. lia.
Qed.

Lemma find_first_close s t :
  has_char "}"%char s = false ->
  Js.find_first "}}" (s +:+ "}}" +:+ t) = Some (s, t).
Proof.
  induction s as [|c s IH]; intros H.
  - rewrite app_empty_l, find_first_head by done. done.
  - simpl in H. apply orb_false_elim in H as [Hc Hs].
    rewrite app_cons. cbn [Js.find_first Js.starts_with].
    rewrite Ascii.eqb_sym, Hc. cbn [andb]. by rewrite (IH Hs).
Qed.

Lemma trim_end_padded s :
  s <> "" -> all_chars (fun c => negb (Js.is_space c)) s = true ->
  Js.trim_end (s +:+ " ") = s.
Proof.
  induction s as [|c s IH]; [done|]. intros _. cbn [all_chars].
  intros [Hc Hs]%andb_true_iff. apply negb_true_iff in Hc.
  rewrite app_cons. cbn [Js.trim_end].
  destruct s as [|c' s].
  - rewrite app_empty_l. cbn. by rewrite Hc.
  - rewrite IH by done. done.
Qed.

Lemma all_chars_weaken (p q : ascii -> bool) s :
  (forall c, p c = true -> q c = true) -> all_chars p s = true -> all_chars q s = true.
Proof.
  intros Hpq. induction s as [|c s IH]; [done|]. simpl.
  intros [Hc Hs]%andb_true_iff. by rewrite (Hpq c Hc), IH.
Qed.

Lemma variable_char_not_space c : variable_char c = true -> negb (Js.is_space c) = true.
Proof. destruct c as [[] [] [] [] [] [] [] []]; by vm_compute. Qed.

(** X16.  A token [{{ this.path }}] on a path of word characters, dots and
    dashes is read as that path: the pass finds the token, takes the keys
    between the dots of the path, in order, and has the token replaced by the
    value they lead to from the configuration object, a value that prints by
    itself going in as a replacement pattern. *)
Theorem variable_token_reads_its_path (path : string) :
  path <> "" ->
  all_chars variable_char path = true ->
  Js.match_all "{{" variable_char ("{{ this." +:+ path +:+ " }}")
  = ["{{ this." +:+ path +:+ " }}"]
  /\ variable_path ("{{ this." +:+ path +:+ " }}") = Js.split "."%char path
  /\ forall data v w,
       walk_path (VObj config) (Js.split "."%char path) = Ok v ->
       vars_step data ("{{ this." +:+ path +:+ " }}") w
       = (replace_value platform data ("{{ this." +:+ path +:+ " }}") v, w)
       /\ forall text,
            to_string v = Some text ->
            vars_step data ("{{ this." +:+ path +:+ " }}") w
            = (Ok (Js.replace data ("{{ this." +:+ path +:+ " }}") text), w).
Proof.
  intros Hne Hpath.
  assert (variable_path ("{{ this." +:+ path +:+ " }}") = Js.split "."%char path) as Hkeys.
  { unfold variable_path. f_equal.
    assert (Js.replace ("{{ this." +:+ path +:+ " }}") "{{" "" = " this." +:+ path +:+ " }}")
      as -> by done.
    assert (Js.replace (" this." +:+ path +:+ " }}") "}}" "" = " this." +:+ path +:+ " ")
      as ->.
    { unfold Js.replace.
      assert (" this." +:+ path +:+ " }}" = (" this." +:+ path +:+ " ") +:+ "}}" +:+ "")
        as -> by (by rewrite !app_assoc).
      rewrite find_first_close; [by rewrite app_empty_r|].
      rewrite !has_char_app.
      by rewrite (all_chars_no variable_char "}"%char path eq_refl Hpath). }
    assert (Js.replace (" this." +:+ path +:+ " ") "this." "" = " " +:+ path +:+ " ")
      as -> by done.
    unfold Js.trim. destruct path as [|c path]; [done|].
    assert (Js.trim_start (" " +:+ String c path +:+ " ") = String c path +:+ " ") as ->.
    { simpl in Hpath. apply andb_true_iff in Hpath as [Hc _].
      apply variable_char_not_space, negb_true_iff in Hc.
      change (" " +:+ String c path +:+ " ")
        with (String " "%char (String c (path +:+ " "))).
      cbn [Js.trim_start]. change (Js.is_space " "%char) with true. cbv iota.
      by rewrite Hc. }
    apply trim_end_padded; [done|].
    eapply all_chars_weaken; [apply variable_char_not_space | done]. }
  assert (Js.includes ("{{ this." +:+ path +:+ " }}") "this." = true) as Hthis.
  { apply includes_spec. by exists "{{ ", (path +:+ " }}"). }
  split; [|split; [done|]].
  - unfold Js.match_all.
    change ("{{ this." +:+ path +:+ " }}")
      with (String "{"%char ("{ this." +:+ path +:+ " }}")).
    cbn [Js.match_all_go].
    assert (Js.match_token "{{" variable_char
              (String "{"%char ("{ this." +:+ path +:+ " }}"))
            = Some (String "{"%char ("{ this." +:+ path +:+ " }}"))) as ->.
    { unfold Js.match_token.
      change (Js.starts_with "{{" (String "{"%char ("{ this." +:+ path +:+ " }}")))
        with true. cbv iota.
      change (Js.drop (String.length "{{") (String "{"%char ("{ this." +:+ path +:+ " }}")))
        with (" " +:+ ("this." +:+ path) +:+ " }}").
      rewrite (span_all Js.is_space " ") by done.
      rewrite (span_all variable_char ("this." +:+ path) " }}") by done.
      change (Js.span Js.is_space " }}") with (" ", "}}").
      cbv beta iota. cbn [Js.starts_with Ascii.eqb Bool.eqb andb].
      change ("this." +:+ path) with (String "t"%char ("his." +:+ path)).
      cbv iota. reflexivity. }
    f_equal. apply match_all_go_skip. cbn [String.length]. lia.
  - intros data v w Hv.
    assert (vars_step data ("{{ this." +:+ path +:+ " }}") w
            = (replace_value platform data ("{{ this." +:+ path +:+ " }}") v, w))
      as Hstep.
    { unfold vars_step. rewrite Hthis, Hkeys.
      unfold_monad. cbn [opt_config options]. by rewrite Hv. }
    split; [done|]. intros text Htext.
    by rewrite Hstep, (replace_value_text _ _ _ text).
Qed.

(** *** [main] and [run] *)

Lemma write_data_string html :
  write_data (VStr html)
  = VStr (if truthy (config_prop options "beautify")
          then beautify (config_prop options "beautify") (VStr html)
          else html).
Proof. unfold write_data. by destruct (truthy _). Qed.

(** X17.  What compile.slm returns for a view is what [main] leaves in the
    distribution tree: for a file of the views directory ending in the
    extension, with the destination's directory in place, [main] writes the
    compiled html to the mirrored path (passing it through the beautifier
    once more when one is configured), returns that path, reports the write
    and, unless audits are switched off, hands the path to the audit. *)
Theorem main_writes_compiled_view (fuel : nat) (name html : string)
    (entries : list string) (w w1 : world) :
  let file := opt_views options +:+ name +:+ ".slm" in
  let dist := opt_dist options +:+ name +:+ ".html" in
  Js.includes (opt_views options +:+ name) ".slm" = false ->
  has_char "$"%char (opt_dist options) = false ->
  compile_slm (include fuel) file None w = (Ok (VStr html), w1) ->
  fs w !! Path.dirname dist = Some (Dir entries) ->
  (forall es, fs w !! dist <> Some (Dir es)) ->
  let r := main fuel file w in
  r.1 = Ok (VStr dist)
  /\ fs r.2 !! dist
     = Some (File (if truthy (config_prop options "beautify")
                   then beautify (config_prop options "beautify") (VStr html)
                   else html))
  /\ console r.2
     = (console w1 ++ LogDescribe file dist
          :: (if nopa11y then [] else [Audit (VStr dist)]))%list.
Proof.
  intros file dist Hext Hdollar Hcompile Hdir Hfile r.
  assert (fs w1 = fs w) as Hdisk.
  { pose proof (leaves_disk_compile_slm (include fuel)
                  (fun ref locals => leaves_disk_include fuel ref locals)
                  file None w) as H.
    by rewrite Hcompile in H. }
  pose proof (write_dist_of_view name Hext Hdollar) as Hdist. fold file dist in Hdist.
  assert (Js.includes file (opt_ext options) = true) as Hinc.
  { apply includes_spec. exists (opt_views options +:+ name), "".
    subst file. by rewrite !app_assoc. }
  rewrite <- Hdist in *. rewrite <- Hdisk in Hdir, Hfile.
  assert (main fuel file w
          = (Ok (VStr (write_dist file)),
             World (<[write_dist file :=
                        File (if truthy (config_prop options "beautify")
                              then beautify (config_prop options "beautify") (VStr html)
                              else html)]>
                      (add_entry (Path.dirname (write_dist file))
                         (Path.basename1 (write_dist file)) (fs w1)))
               (heap w1)
               (console w1 ++ LogDescribe file (write_dist file)
                  :: (if nopa11y then [] else [Audit (VStr (write_dist file))]))))
    as Hmain.
  { unfold main. rewrite Hinc. unfold mbind, M_bind. rewrite Hcompile.
    rewrite (write_into_directory file (VStr html) _ entries w1 Hdir Hfile
               (write_data_string html)).
    destruct nopa11y; cbn [negb]; unfold mret, M_ret, log; cbv beta iota;
      cbn [fs heap console]; [done|]. by rewrite <- List.app_assoc. }
  subst r. rewrite Hmain. cbn [fst snd fs heap console].
  split; [done|]. split; [by rewrite lookup_insert_eq | done].
Qed.

(** X18.  Under watch, [run] builds nothing when it starts: it reads the
    listing of the views directory, keeps the entries that hold the extension
    as the views, and leaves the watcher installed; the disk and the objects
    are as they were.  With no views directory the process exits, and with a
    file in its place [run] reports the failure and returns. *)
Theorem run_watch_builds_nothing (fuel : nat) (w : world) :
  watch = true ->
  let r := run fuel w in
  fs r.2 = fs w
  /\ heap r.2 = heap w
  /\ r.1 = match fs w !! opt_views options with
           | Some (Dir entries) =>
               Ok (Watching (List.filter (fun view => Js.includes view ".slm") entries)
                     (opt_views options))
           | Some (File _) => Ok Returned
           | None => Ok Exited
           end.
Proof.
  intros Hwatch r. subst r. unfold run. rewrite Hwatch. unfold_monad.
  unfold existsSync, readdirSync, log.
  destruct (fs w !! opt_views options) as [[text|entries]|] eqn:Hf.
  all: rewrite ?bool_decide_eq_true_2 by (by eexists).
  all: rewrite ?bool_decide_eq_false_2 by (by intros [? ?]).
  all: cbn [negb]; cbv beta iota; cbn [fs heap console fst snd]; rewrite ?Hf; done.
Qed.

(** *** Nothing is removed *)

Definition same_kind (a b : node) : Prop :=
  match a, b with
  | File _, File _ => True
  | Dir _, Dir _ => True
  | _, _ => False
  end.

(** Every entry of the disk [before] is still on the disk [after], a file
    still a file and a directory still a directory. *)
Definition disk_kept (before after : gmap string node) : Prop :=
  forall p n, before !! p = Some n -> exists n', after !! p = Some n' /\ same_kind n n'.

Definition keeps_disk {A} (m : M A) : Prop :=
  forall w, disk_kept (fs w) (fs (m w).2).

Lemma same_kind_refl n : same_kind n n.
Proof. by destruct n. Qed.

Lemma same_kind_trans a b c : same_kind a b -> same_kind b c -> same_kind a c.
Proof. by destruct a, b, c. Qed.

Lemma disk_kept_refl files : disk_kept files files.
Proof. intros p n H. exists n. split; [done | apply same_kind_refl]. Qed.

Lemma disk_kept_trans a b c : disk_kept a b -> disk_kept b c -> disk_kept a c.
Proof.
  intros Hab Hbc p n H. destruct (Hab p n H) as (n1 & H1 & K1).
  destruct (Hbc p n1 H1) as (n2 & H2 & K2). exists n2. split; [done|].
  by eapply same_kind_trans.
Qed.

Lemma keeps_disk_of_leaves {A} (m : M A) : leaves_disk m -> keeps_disk m.
Proof. intros H w. rewrite H. apply disk_kept_refl. Qed.

Lemma keeps_disk_ret {A} (a : A) : keeps_disk (mret a).
Proof. intros w. apply disk_kept_refl. Qed.

Lemma keeps_disk_bind {A B} (m : M A) (f : A -> M B) :
  keeps_disk m -> (forall a, keeps_disk (f a)) -> keeps_disk (m ≫= f).
Proof.
  intros Hm Hf w. unfold mbind, M_bind. specialize (Hm w).
  destruct (m w) as [[a|e|] w']; simpl in *; [|done..].
  eapply disk_kept_trans; [exact Hm | apply Hf].
Qed.

Lemma keeps_disk_try_catch {A} (m : M A) (h : string -> M A) :
  keeps_disk m -> (forall e, keeps_disk (h e)) -> keeps_disk (try_catch m h).
Proof.
  intros Hm Hh w. unfold try_catch. specialize (Hm w).
  destruct (m w) as [[a|e|] w']; simpl in *; [done| |done].
  eapply disk_kept_trans; [exact Hm | apply Hh].
Qed.

Lemma disk_kept_add_entry parent name files :
  disk_kept files (add_entry parent name files).
Proof.
  intros p n H. unfold add_entry.
  destruct (files !! parent) as [[c|es]|] eqn:Hparent; try (by exists n; split; [|apply same_kind_refl]).
  destruct (bool_decide (name ∈ es)); [by exists n; split; [|apply same_kind_refl]|].
  destruct (decide (p = parent)) as [->|Hne].
  - rewrite lookup_insert_eq. eexists. split; [done|]. by simplify_eq.
  - rewrite lookup_insert_ne by done. exists n. split; [done | apply same_kind_refl].
Qed.

(** Putting [n] at [p] keeps the disk when [p] held nothing, or held an entry
    of the kind of [n]. *)
Lemma disk_kept_insert p n files :
  (forall old, files !! p = Some old -> same_kind old n) ->
  disk_kept files (<[p := n]> files).
Proof.
  intros Hold q m H. destruct (decide (q = p)) as [->|Hne].
  - rewrite lookup_insert_eq. exists n. split; [done | by apply Hold].
  - rewrite lookup_insert_ne by done. exists m. split; [done | apply same_kind_refl].
Qed.

Lemma keeps_disk_mkdirSync p : keeps_disk (mkdirSync p).
Proof.
  intros w. unfold mkdirSync.
  destruct (fs w !! p) as [old|] eqn:Hp; [apply disk_kept_refl|].
  destruct (fs w !! Path.dirname p) as [[c|es]|] eqn:Hd; try apply disk_kept_refl.
  cbn [set_fs snd fs].
  eapply disk_kept_trans; [apply disk_kept_add_entry|].
  apply disk_kept_insert. intros old Hold.
  destruct (decide (p = Path.dirname p)) as [Heq|Hne]; [congruence|].
  rewrite add_entry_other in Hold by done. congruence.
Qed.

Lemma keeps_disk_writeFileSync p data : keeps_disk (writeFileSync p data).
Proof.
  intros w. unfold writeFileSync. destruct data; try apply disk_kept_refl.
  destruct (fs w !! p) as [[c|es]|] eqn:Hp; try apply disk_kept_refl.
  - destruct (fs w !! Path.dirname p) as [[c'|es]|] eqn:Hd; try apply disk_kept_refl.
    cbn [set_fs snd fs].
    eapply disk_kept_trans; [apply disk_kept_add_entry|].
    apply disk_kept_insert. intros old Hold.
    destruct (decide (p = Path.dirname p)) as [Heq|Hne]; [congruence|].
    rewrite add_entry_other in Hold by done. by simplify_eq.
  - destruct (fs w !! Path.dirname p) as [[c'|es]|] eqn:Hd; try apply disk_kept_refl.
    cbn [set_fs snd fs].
    eapply disk_kept_trans; [apply disk_kept_add_entry|].
    apply disk_kept_insert. intros old Hold.
    destruct (decide (p = Path.dirname p)) as [Heq|Hne]; [congruence|].
    rewrite add_entry_other in Hold by done. congruence.
Qed.

Lemma keeps_disk_log entry : keeps_disk (log entry).
Proof. apply keeps_disk_of_leaves. by intros w. Qed.

Lemma keeps_disk_write file data : keeps_disk (write file data).
Proof.
  rewrite write_unfold. apply keeps_disk_try_catch.
  - apply keeps_disk_bind; [apply keeps_disk_of_leaves; by intros w|]. intros present.
    apply keeps_disk_bind.
    { destruct (negb present); [apply keeps_disk_mkdirSync | apply keeps_disk_ret]. }
    intros _. apply keeps_disk_bind; [apply keeps_disk_writeFileSync|]. intros _.
    apply keeps_disk_bind; [apply keeps_disk_log | intros; apply keeps_disk_ret].
  - intros e. apply keeps_disk_bind; [apply keeps_disk_log | intros; apply keeps_disk_ret].
Qed.

Lemma keeps_disk_main fuel file : keeps_disk (main fuel file).
Proof.
  unfold main. destruct (Js.includes file (opt_ext options)); [|apply keeps_disk_ret].
  apply keeps_disk_bind.
  { apply keeps_disk_of_leaves, leaves_disk_compile_slm.
    intros. apply leaves_disk_include. }
  intros compiled. apply keeps_disk_bind; [apply keeps_disk_write|]. intros dist.
  apply keeps_disk_bind; [|intros; apply keeps_disk_ret].
  destruct (negb nopa11y); [apply keeps_disk_log | apply keeps_disk_ret].
Qed.

Lemma keeps_disk_for_each_reversed {B} (f : B -> M unit) l :
  (forall b, keeps_disk (f b)) -> keeps_disk (for_each_reversed f l).
Proof.
  intros Hf. induction l as [|b l IH]; simpl.
  - apply keeps_disk_ret.
  - apply keeps_disk_bind; auto.
Qed.

Lemma keeps_disk_walk fuel file dir : keeps_disk (walk fuel file dir).
Proof.
  revert file dir. induction fuel as [|fuel IH]; intros file dir.
  - intros w. apply disk_kept_refl.
  - rewrite walk_unfold. destruct (Js.includes _ (opt_ext options)).
    + apply keeps_disk_bind; [apply keeps_disk_main | intros; apply keeps_disk_ret].
    + apply keeps_disk_try_catch; [|intros; apply keeps_disk_log].
      apply keeps_disk_bind.
      { apply keeps_disk_of_leaves. intros w. unfold readdirSync.
        by destruct (fs w !! _) as [[]|]. }
      intros files. apply keeps_disk_for_each_reversed. intros child. apply IH.
Qed.

(** X22.  The build removes nothing: after [write], [main], [walk], the
    change handler or [run], every path that held a file still holds a file
    and every path that held a directory still holds a directory.  A failed
    compile or write can leave a file unwritten, never take one away. *)
Theorem build_removes_nothing (fuel : nat) (file : string) (data : value)
    (dir : option string) (views : list string) (folder : string) (w : world) :
  disk_kept (fs w) (fs (write file data w).2)
  /\ disk_kept (fs w) (fs (main fuel file w).2)
  /\ disk_kept (fs w) (fs (walk fuel file dir w).2)
  /\ disk_kept (fs w) (fs (on_change fuel views folder file w).2)
  /\ disk_kept (fs w) (fs (run fuel w).2).
Proof.
  repeat split.
  - apply keeps_disk_write.
  - apply keeps_disk_main.
  - apply keeps_disk_walk.
  - unfold on_change. destruct development; [|apply keeps_disk_walk].
    apply keeps_disk_bind; [apply keeps_disk_log|]. intros _.
    destruct (_ || _); [|apply keeps_disk_walk].
    apply keeps_disk_bind; [apply keeps_disk_main | intros; apply keeps_disk_ret].
  - unfold run. apply keeps_disk_try_catch.
    + apply keeps_disk_bind; [apply keeps_disk_of_leaves; by intros w'|].
      intros present. destruct (negb present).
      * apply keeps_disk_bind; [apply keeps_disk_log | intros; apply keeps_disk_ret].
      * apply keeps_disk_bind.
        { apply keeps_disk_of_leaves. intros w'. unfold readdirSync.
          by destruct (fs w' !! _) as [[]|]. }
        intros files. destruct watch.
        -- apply keeps_disk_bind; [apply keeps_disk_log | intros; apply keeps_disk_ret].
        -- apply keeps_disk_bind; [apply keeps_disk_walk|]. intros _.
           apply keeps_disk_bind; [apply keeps_disk_log | intros; apply keeps_disk_ret].
    + intros e. apply keeps_disk_bind; [apply keeps_disk_log | intros; apply keeps_disk_ret].
Qed.

End Slm.

(** * The properties at work on a small site *)

Definition site_config : gmap string value :=
  {[ "title" := VStr "Patterns"; "site" := VObj {[ "name" := VStr "NYCO" ]} ]}.

(** A stand-in for the built-ins of the platform, as far as this site goes.
    What a plain object inherits is known by the name of the property:
    [constructor] is the function [Object], whose name is [Object], and
    [__proto__] is an object.  Called as a replacer, with no receiver,
    [toString] answers [[object Undefined]], [Object] gives back the text it is
    given, [isPrototypeOf] answers [false] and the others throw. *)
Definition site_platform : platform_t :=
  {| member v k :=
       match v with
       | VObj _ =>
           Returns (VNative (if String.eqb k "constructor" then "Object"
                             else "Object.prototype." +:+ k))
       | VNative name =>
           if String.eqb name "Object" && String.eqb k "name" then Returns (VStr "Object")
           else Returns VUndefined
       | _ => Returns VUndefined
       end;
     is_callable name := negb (String.eqb name "Object.prototype.__proto__");
     call_replacer name matched position whole :=
       if String.eqb name "Object.prototype.toString" then Returns "[object Undefined]"
       else if String.eqb name "Object" then Returns matched
       else if String.eqb name "Object.prototype.isPrototypeOf" then Returns "false"
       else Throws "TypeError: Cannot convert undefined or null to object";
     print v :=
       match v with
       | VNative _ => Returns "[object Object]"
       | _ => Throws "TypeError: Cannot convert object to primitive value"
       end |}.

Definition show_value (v : value) : string := default "[object]" (to_string v).

Definition show_local (v : option lvalue) : string :=
  match v with
  | Some (Data v) => show_value v
  | Some IncludeFn => "[Function: include]"
  | None => "undefined"
  end.

(** A stand-in for the template engine: a source [= include ref] renders what
    [include(ref)] returns, any other source names a local and renders it. *)
Definition site_engine (src filename base_path : string) (locals : obj) : template :=
  if Js.starts_with "= include " src
  then CallInclude (Js.drop 10 src) NoLocals (fun v => Html (show_value v))
  else Html (show_local (locals !! src)).

Definition site_marked (options : value) (md : string) : string := md.
Definition site_beautify (options : value) (html : value) : string := show_value html.

Definition site_disk : gmap string node :=
  {[ "/site" := Dir ["src"; "dist"];
     "/site/dist" := Dir [];
     "/site/src" := Dir ["views"; "partial.html"; "doc.md"; "broken.md"; "echo.html";
                         "price.html"];
     "/site/src/views" := Dir ["index.slm"; "notes.slm.bak"; "probe.slm"];
     "/site/src/views/index.slm" := File "title";
     "/site/src/views/probe.slm" := File "include";
     "/site/src/views/notes.slm.bak" := File "= include doc.md";
     "/site/src/partial.html" := File "<h1>{{ this.title }}</h1>";
     "/site/src/doc.md" := File "include{{ partial.html }}";
     "/site/src/broken.md" := File "<p>{{ this.site.owner.name }}</p>";
     "/site/src/echo.html" := File "$&";
     "/site/src/price.html" := File "<b>$$5</b>" ]}.

Definition callers_locals : obj := {[ "title" := Data (VStr "Mine") ]}.

Definition site : world := World site_disk {[ 1%positive := callers_locals ]} [].

Abbreviation site_options := (options "/site" "src" "dist" "views" site_config).
Abbreviation site_include :=
  (include "/site" "src" "dist" "views" site_config site_platform site_engine site_marked
     site_beautify).
Abbreviation site_compile_slm :=
  (compile_slm "/site" "src" "dist" "views" site_config site_engine site_beautify).
Abbreviation site_compile_md :=
  (compile_md "/site" "src" "dist" "views" site_config site_platform site_marked).
Abbreviation site_mrkdwn_vars :=
  (mrkdwn_vars "/site" "src" "dist" "views" site_config site_platform).
Abbreviation site_mrkdwn_slm := (mrkdwn_slm site_platform).
Abbreviation site_slm_step := (slm_step site_platform).
Abbreviation site_main :=
  (main "/site" "src" "dist" "views" site_config site_platform site_engine site_marked
     site_beautify false).
Abbreviation site_run :=
  (run "/site" "src" "dist" "views" site_config site_platform site_engine site_marked
     site_beautify false).
Abbreviation site_on_watch :=
  (on_watch "/site" "src" "dist" "views" site_config site_platform site_engine site_marked
     site_beautify false true).
Abbreviation site_walk :=
  (walk "/site" "src" "dist" "views" site_config site_platform site_engine site_marked
     site_beautify false).

Ltac run := vm_compute; reflexivity.

(** The caller's object after a compile of the view [index.slm]. *)
Lemma compile_slm_updates_callers_locals_site :
  heap (site_compile_slm (site_include 3) "/site/src/views/index.slm" (Some 1%positive) site).2
    !! 1%positive
  = Some (template_locals site_config callers_locals).
Proof.
  rewrite (compile_slm_updates_callers_locals "/site" "src" "dist" "views" site_config site_platform
             site_engine site_marked site_beautify 3 "/site/src/views/index.slm"
             1%positive callers_locals site); run.
Defined.

(** C1, against the claim: the object the caller passed holds, after the
    compile, the include function and the configuration's title in place of
    its own. *)
Lemma compile_slm_leaks_into_callers_locals :
  let before := heap site !! 1%positive in
  let after :=
    heap (site_compile_slm (site_include 3) "/site/src/views/index.slm"
            (Some 1%positive) site).2 !! 1%positive in
  before = Some callers_locals
  /\ callers_locals !! "include" = None
  /\ after ≫= (.!! "include") = Some IncludeFn
  /\ after ≫= (.!! "title") = Some (Data (VStr "Patterns"))
  /\ after <> before.
Proof.
  repeat split; try run. vm_compute. discriminate.
Qed.

(** The view [index.slm] renders the local [title]: it shows the
    configuration's title, not the caller's. *)
Lemma config_wins_over_locals_site :
  (site_compile_slm (site_include 3) "/site/src/views/index.slm" (Some 1%positive) site).1
  = Ok (VStr "Patterns").
Proof.
  destruct (config_wins_over_locals "/site" "src" "dist" "views" site_config
              site_engine site_beautify (site_include 3)
              "/site/src/views/index.slm" "title" 1%positive callers_locals site
              "title" (Data (VStr "Mine")) (VStr "Patterns")
              ltac:(run) ltac:(run) ltac:(run) ltac:(run) ltac:(discriminate))
    as (seen & Hkey & _ & ->).
  unfold site_engine.
  change (Js.starts_with "= include " "title") with false. cbv iota.
  cbn [render]. unfold try_catch, mbind, M_bind, mret, M_ret. cbv beta iota.
  rewrite Hkey. reflexivity.
Defined.

(** C4, against the claim: with [include] a key of both the caller's locals
    and the configuration, the template is rendered with neither value but
    with the include function. *)
Lemma config_loses_include_key :
  let config : gmap string value := {[ "include" := VStr "theirs" ]} in
  let locals : obj := {[ "include" := Data (VStr "mine") ]} in
  let w := World site_disk {[ 1%positive := locals ]} [] in
  let r :=
    compile_slm "/site" "src" "dist" "views" config site_engine site_beautify
      (include "/site" "src" "dist" "views" config site_platform site_engine site_marked
         site_beautify 3)
      "/site/src/views/probe.slm" (Some 1%positive) w in
  locals !! "include" = Some (Data (VStr "mine"))
  /\ config !! "include" = Some (VStr "theirs")
  /\ fs w !! "/site/src/views/probe.slm" = Some (File "include")
  /\ heap r.2 !! 1%positive ≫= (.!! "include") = Some IncludeFn
  /\ r.1 = Ok (VStr "[Function: include]")
  /\ r.1 <> Ok (VStr "theirs").
Proof.
  repeat split; try run. vm_compute. discriminate.
Qed.

(** C2, against the claim.  A partial in a folder of the views directory that
    bears a view's name is owned by that view as the claim words ownership,
    yet the router does not take it for owned and compiles the partial
    itself; a path in a folder outside the views directory whose path merely
    contains a view's name is taken for owned, and the target is a file that
    is no view. *)
Lemma change_router_not_by_folder_name :
  let views := ["home.slm"; "about.slm"] in
  let dir := "/site/src/views" in
  let hero := "/site/src/views/home/hero.slm" in
  let card := "/site/src/homepage/cards/card.slm" in
  (owns_by_name site_options dir hero "home.slm" = true
   /\ owns site_options dir hero "home.slm" = false
   /\ hasView site_options views dir hero = false
   /\ changed_target site_options views dir hero = hero)
  /\ (owns_by_name site_options dir card "home.slm" = false
      /\ owns site_options dir card "home.slm" = true
      /\ changed_target site_options views dir card = "/site/src/views/cards.slm")
  /\ (owns_by_name site_options "views" "views/home/hero.html" "home.slm" = true
      /\ changed_target site_options views "views" "views/home/hero.html"
         = "views/home/hero.html").
Proof. repeat split; run. Qed.


(** The include engine on three references. *)
Example include_resolution_site :
  (site_include 3 "views/index" None site).1 = Ok (VStr "Patterns")
  /\ (site_include 3 "partial.html" None site).1 = Ok (VStr "<h1>{{ this.title }}</h1>")
  /\ (site_include 3 "doc.md" None site).1 = Ok (VStr "<h1>Patterns</h1>")
  /\ (site_include 3 "missing" None site).1 = Ok (VStr "").
Proof. repeat split; run. Qed.


(** The markdown file [broken.md] reads [site.owner.name], and the
    configuration's [site] has no [owner]. *)
Lemma markdown_missing_field_soft_fail_site :
  (site_compile_md (site_include 3) "/site/src/broken.md" (Some 1%positive) site).1
  = Ok VUndefined.
Proof.
  destruct (markdown_missing_field_soft_fail "/site" "src" "dist" "views" site_config site_platform
              site_marked (site_include 3) "/site/src/broken.md"
              "<p>{{ this.site.owner.name }}</p>" 1%positive site site
              "<p>{{ this.site.owner.name }}</p>" "{{ this.site.owner.name }}"
              ["site"; "owner"] "name" []
              ltac:(run) ltac:(run) ltac:(vm_compute; left; reflexivity)
              ltac:(run) ltac:(run) ltac:(run))
    as [err [-> _]].
  reflexivity.
Defined.

Lemma compilers_missing_file_empty_site :
  (site_compile_slm (site_include 3) "/site/src/missing.slm" None site).1 = Ok (VStr "")
  /\ (site_compile_md (site_include 3) "/site/src/missing.md" None site).1 = Ok (VStr "")
  /\ (compile_default "/site/src/missing.txt" None site).1 = Ok (VStr "").
Proof.
  split; [|split].
  - apply (compilers_missing_file_empty "/site" "src" "dist" "views" site_config site_platform
             site_engine site_marked site_beautify (site_include 3)
             "/site/src/missing.slm" None site ltac:(run)).
  - apply (compilers_missing_file_empty "/site" "src" "dist" "views" site_config site_platform
             site_engine site_marked site_beautify (site_include 3)
             "/site/src/missing.md" None site ltac:(run)).
  - apply (compilers_missing_file_empty "/site" "src" "dist" "views" site_config site_platform
             site_engine site_marked site_beautify (site_include 3)
             "/site/src/missing.txt" None site ltac:(run)).
Defined.

(** The fragment [price.html] holds [$$]: one dollar sign comes out, where
    the text of the fragment has two. *)
Lemma include_pass_pattern_replace_site :
  (site_mrkdwn_slm (site_include 3) "<p>include{{ price.html }}</p>" site).1
  = Ok "<p><b>$5</b></p>"
  /\ Js.replace_literal "<p>include{{ price.html }}</p>" "include{{ price.html }}"
       "<b>$$5</b>"
     = "<p><b>$$5</b></p>".
Proof.
  destruct (include_pass_pattern_replace site_platform (site_include 3)
              "<p>include{{ price.html }}</p>" "include{{ price.html }}" "<b>$$5</b>"
              "<p>" "</p>" site (site_include 3 "price.html" None site).2
              ltac:(run) ltac:(run) ltac:(run))
    as (_ & _ & Hrun & _).
  rewrite Hrun. split; run.
Defined.

(** The fragment [echo.html] holds [$&]: the directive that includes it comes
    back in its place. *)
Example include_pass_site :
  (site_mrkdwn_slm (site_include 3) "<p>include{{ echo.html }}</p>" site).1
  = Ok "<p>include{{ echo.html }}</p>"
  /\ Js.replace_literal "<p>include{{ echo.html }}</p>" "include{{ echo.html }}" "$&"
     = "<p>$&</p>".
Proof. split; run. Qed.

(** [notes.slm.bak] does not end in the extension, and is compiled and
    written all the same; so is a file in a folder named [x.slm]. *)
Lemma template_files_by_containment_site :
  Path.ends_with "/site/src/views/notes.slm.bak" ".slm" = false
  /\ (site_main 3 "/site/src/views/notes.slm.bak" site).1
     = Ok (VStr "/site/dist/notes.html.bak")
  /\ fs (site_main 3 "/site/src/views/notes.slm.bak" site).2 !! "/site/dist/notes.html.bak"
     = Some (File "<h1>Patterns</h1>")
  /\ site_walk 4 "readme.txt" (Some "/site/src/views/x.slm")
     = (_ ← site_main 3 "/site/src/views/x.slm/readme.txt"; mret tt).
Proof.
  destruct (template_files_by_containment "/site" "src" "dist" "views" site_config site_platform
              site_engine site_marked site_beautify false 3
              "/site/src/views/notes.slm.bak"
              ltac:(by exists "/site/src/views/notes", ".bak")) as [Hmain _].
  destruct (template_files_by_containment "/site" "src" "dist" "views" site_config site_platform
              site_engine site_marked site_beautify false 3
              "/site/src/views/x.slm/readme.txt"
              ltac:(by exists "/site/src/views/x", "/readme.txt")) as [_ Hwalk].
  split; [run|]. rewrite Hmain. split; [run|]. split; [run|].
  apply Hwalk; [discriminate | run].
Defined.

(** The specification's examples of the variable pass. *)
Example variables_site :
  site_mrkdwn_vars "<p>{{ foo }} by {{ this.site.name }}</p>" site
  = (Ok "<p>{{ foo }} by NYCO</p>", site).
Proof. run. Qed.

(** A whole run, and a change under watch. *)
Example run_site :
  let r := site_run false 5 site in
  r.1 = Ok Exited
  /\ fs r.2 !! "/site/dist" = Some (Dir ["probe.html"; "notes.html.bak"; "index.html"])
  /\ fs r.2 !! "/site/dist/index.html" = Some (File "Patterns").
Proof. repeat split; run. Qed.

(** Changes under watch.  In development a partial outside the views
    directory that no view owns has the whole views directory built, and so
    has every change outside development. *)
Example change_router_site :
  let views := ["index.slm"; "notes.slm.bak"; "probe.slm"] in
  let built (w : world) :=
    (fs w !! "/site/dist/index.html", fs w !! "/site/dist/probe.html",
     fs w !! "/site/dist/notes.html.bak") in
  let all := (Some (File "Patterns"), Some (File "[Function: include]"),
              Some (File "<h1>Patterns</h1>")) in
  hasView site_options views "/site/src/views" "/site/src/partial.html" = false
  /\ inViews "/site/src/views" "/site/src/partial.html" = false
  /\ built (site_on_watch 5 (Watching views "/site/src/views") "/site/src/partial.html"
              site).2 = all
  /\ built (on_watch "/site" "src" "dist" "views" site_config site_platform site_engine
              site_marked site_beautify false false 5
              (Watching views "/site/src/views") "/site/src/views/index.slm" site).2
     = all
  /\ built (site_on_watch 5 (Watching views "/site/src/views")
              "/site/src/views/index.slm" site).2
     = (Some (File "Patterns"), None, None).
Proof. repeat split; run. Qed.

Example watch_site :
  let started := site_run true 5 site in
  started.1 = Ok (Watching ["index.slm"; "notes.slm.bak"; "probe.slm"] "/site/src/views")
  /\ forall state, started.1 = Ok state ->
       fs (site_on_watch 5 state "/site/src/views/index.slm" started.2).2
         !! "/site/dist/index.html"
       = Some (File "Patterns").
Proof. split; [run|]. intros state [= <-]. run. Qed.

(** * Further properties at work on the small site *)

(** A site with a template that includes itself, a plain markdown file and a
    folder where a file is expected. *)
Definition docs_disk : gmap string node :=
  {[ "/site" := Dir ["src"; "dist"];
     "/site/dist" := Dir [];
     "/site/src" := Dir ["views"; "loop.slm"; "plain.md"; "logo.svg"; "parts.md"];
     "/site/src/views" := Dir ["index.slm"; "readme.txt"];
     "/site/src/views/index.slm" := File "title";
     "/site/src/views/readme.txt" := File "notes";
     "/site/src/loop.slm" := File "= include loop";
     "/site/src/plain.md" := File "<p>Hello</p>";
     "/site/src/logo.svg" := File "<svg/>";
     "/site/src/parts.md" := Dir [] ]}.

Definition docs : world := World docs_disk {[ 1%positive := callers_locals ]} [].

(** An engine that fails on every template. *)
Definition failing_engine (src filename base_path : string) (locals : obj) : template :=
  Raise ("SyntaxError in " +:+ filename).

Abbreviation site_write := (write "/site" "src" "dist" "views" site_config site_beautify).
Abbreviation site_write_dist := (write_dist "/site" "src" "dist" "views" site_config).

Lemma self_include_exhausts_stack_site :
  exists v w',
    site_include 25 "loop" None docs = (Ok v, w')
    /\ In (LogError "compile.slm" stack_exhausted) (console w')
    /\ fs w' = fs docs
    /\ (24 = 0 -> v = VUndefined).
Proof.
  apply (self_include_exhausts_stack "/site" "src" "dist" "views" site_config
           site_platform site_engine site_marked site_beautify 24 "loop" "= include loop"
           NoLocals (fun v => Html (show_value v)) None docs); [run | | run].
  intros o. reflexivity.
Defined.

(** The template that includes itself, with room for three includes: the
    innermost compile reports the full stack and returns [undefined], which
    the compiles around it render. *)
Example self_include_site :
  (site_include 3 "loop" None docs).1 = Ok (VStr "undefined")
  /\ console (site_include 3 "loop" None docs).2
     = [LogError "compile.slm" stack_exhausted].
Proof. split; run. Qed.

Lemma compilers_on_directory_site :
  exists err,
    site_compile_md (site_include 3) "/site/src/parts.md" (Some 1%positive) docs
    = (Ok VUndefined,
       World (fs docs) (heap docs) (console docs ++ [LogError "compile.md" err])).
Proof.
  apply (compilers_on_directory "/site" "src" "dist" "views" site_config site_platform
           site_engine site_marked site_beautify (site_include 3)
           "/site/src/parts.md" [] 1%positive docs ltac:(run)).
Defined.

Lemma compile_slm_template_failure_site :
  compile_slm "/site" "src" "dist" "views" site_config failing_engine site_beautify
    (site_include 3) "/site/src/views/index.slm" (Some 1%positive) docs
  = (Ok VUndefined,
     World (fs docs)
       (<[1%positive := template_locals site_config callers_locals]> (heap docs))
       (console docs
          ++ [LogError "compile.slm" "SyntaxError in /site/src/views/index.slm"])).
Proof.
  apply (compile_slm_template_failure "/site" "src" "dist" "views" site_config
           failing_engine site_beautify (site_include 3)
           "/site/src/views/index.slm" "title"); [run | run | reflexivity].
Defined.

Lemma include_unregistered_extension_site :
  (site_include 3 "logo.svg" None docs).1 = Ok (VStr "<svg/>")
  /\ console (site_include 3 "logo.svg" None docs).2 = [LogNotify ".svg"].
Proof.
  destruct (include_unregistered_extension "/site" "src" "dist" "views" site_config site_platform
              site_engine site_marked site_beautify 2 "logo.svg" None docs
              ltac:(discriminate) ltac:(discriminate) ltac:(discriminate)
              ltac:(discriminate)) as (Hvalue & _ & _).
  split; [|run]. rewrite Hvalue. run.
Defined.

Lemma walk_reports_what_it_cannot_list_site :
  exists err,
    site_walk 4 "readme.txt" (Some "/site/src/views") docs
    = (Ok tt, World (fs docs) (heap docs) (console docs ++ [LogError "walk" err])).
Proof.
  apply (walk_reports_what_it_cannot_list "/site" "src" "dist" "views" site_config site_platform
           site_engine site_marked site_beautify false 3 "readme.txt"
           (Some "/site/src/views") docs); [run|].
  intros entries. vm_compute. discriminate.
Defined.

Lemma walk_children_in_reverse_site :
  site_walk 4 "/site/src/views" None docs
  = for_each (fun _ child => site_walk 3 child (Some "/site/src/views")) tt
      ["readme.txt"; "index.slm"] docs.
Proof.
  apply (walk_children_in_reverse "/site" "src" "dist" "views" site_config site_platform
           site_engine site_marked site_beautify false 3 "/site/src/views" None
           ["index.slm"; "readme.txt"] docs); run.
Defined.

Lemma write_maps_view_to_dist_site :
  (site_write "/site/src/views/index.slm" (VStr "<h1>Patterns</h1>") docs).1
  = Ok (VStr "/site/dist/index.html")
  /\ fs (site_write "/site/src/views/index.slm" (VStr "<h1>Patterns</h1>") docs).2
       !! "/site/dist/index.html"
     = Some (File "<h1>Patterns</h1>").
Proof.
  destruct (write_maps_view_to_dist "/site" "src" "dist" "views" site_config
              site_beautify "/index" "<h1>Patterns</h1>" (VStr "<h1>Patterns</h1>")
              [] docs ltac:(run) ltac:(run) ltac:(run)
              ltac:(intros es; vm_compute; discriminate) ltac:(run))
    as (Hvalue & Hfile & _).
  split; [exact Hvalue | exact Hfile].
Defined.

Lemma write_creates_missing_directory_site :
  fs (site_write "/site/src/views/docs/a.slm" (VStr "<p>a</p>") docs).2
    !! "/site/dist/docs"
  = Some (Dir ["a.html"]).
Proof.
  destruct (write_creates_missing_directory "/site" "src" "dist" "views" site_config
              site_beautify "/site/src/views/docs/a.slm" "<p>a</p>" (VStr "<p>a</p>")
              [] docs ltac:(run) ltac:(run) ltac:(run) ltac:(run))
    as (_ & _ & Hdir).
  exact Hdir.
Defined.

Lemma write_makes_no_directory_chain_site :
  exists err,
    site_write "/site/src/views/docs/api/a.slm" (VStr "<p>a</p>") docs
    = (Ok VUndefined,
       World (fs docs) (heap docs) (console docs ++ [LogError "write" err])).
Proof.
  apply (write_makes_no_directory_chain "/site" "src" "dist" "views" site_config
           site_beautify "/site/src/views/docs/api/a.slm" (VStr "<p>a</p>") docs);
    [run|]. intros es. vm_compute. discriminate.
Defined.

Lemma compile_md_plain_document_site :
  site_compile_md (site_include 3) "/site/src/plain.md" (Some 1%positive) docs
  = (Ok (VStr "<p>Hello</p>"), docs).
Proof.
  apply (compile_md_plain_document "/site" "src" "dist" "views" site_config site_platform
           site_marked (site_include 3) "/site/src/plain.md" "<p>Hello</p>"
           1%positive docs); run.
Defined.

Lemma include_pass_inserts_plain_fragment_site :
  (site_slm_step (site_include 3) "<main>include{{ logo.svg }}</main>"
     "include{{ logo.svg }}" docs).1
  = Ok "<main><svg/></main>".
Proof.
  rewrite (include_pass_inserts_plain_fragment site_platform (site_include 3)
             "<main>include{{ logo.svg }}</main>" "include{{ logo.svg }}" "<svg/>"
             docs (site_include 3 "logo.svg" None docs).2); run.
Defined.

Lemma include_pass_prints_undefined_site :
  (site_slm_step (site_include 3) "<main>include{{ parts.md }}</main>"
     "include{{ parts.md }}" docs).1
  = Ok "<main>undefined</main>".
Proof.
  rewrite (include_pass_prints_undefined site_platform (site_include 3)
             "<main>include{{ parts.md }}</main>" "include{{ parts.md }}"
             docs (site_include 3 "parts.md" None docs).2); run.
Defined.

Lemma variable_missing_leaf_prints_undefined_site :
  vars_step "/site" "src" "dist" "views" site_config site_platform
    "<p>{{ this.site.owner }}</p>" "{{ this.site.owner }}" docs
  = (Ok "<p>undefined</p>", docs).
Proof.
  rewrite (variable_missing_leaf_prints_undefined "/site" "src" "dist" "views"
             site_config site_platform "<p>{{ this.site.owner }}</p>" "{{ this.site.owner }}"
             ["site"] "owner" {[ "name" := VStr "NYCO" ]} docs); run.
Defined.

Lemma variable_token_reads_its_path_site :
  variable_path "{{ this.site.name }}" = ["site"; "name"]
  /\ vars_step "/site" "src" "dist" "views" site_config site_platform
       "By {{ this.site.name }}" "{{ this.site.name }}" docs
     = (Ok "By NYCO", docs).
Proof.
  destruct (variable_token_reads_its_path "/site" "src" "dist" "views" site_config site_platform
              "site.name" ltac:(discriminate) ltac:(run)) as (_ & Hkeys & Hstep).
  split; [exact Hkeys|].
  destruct (Hstep "By {{ this.site.name }}" (VStr "NYCO") docs ltac:(run)) as [_ Htext].
  etransitivity; [exact (Htext "NYCO" eq_refl) | run].
Defined.

(** What a plain object inherits is read like its own properties: the token
    [{{ this.site.constructor.name }}] gives the name of the function that
    makes plain objects, and [{{ this.toString }}], whose value is a function,
    has that function called for the replacement. *)
Example inherited_members_site :
  site_mrkdwn_vars "<p>{{ this.site.constructor.name }}</p>" docs
  = (Ok "<p>Object</p>", docs)
  /\ site_mrkdwn_vars "<p>{{ this.toString }}</p>" docs
     = (Ok "<p>[object Undefined]</p>", docs)
  /\ site_mrkdwn_vars "<p>{{ this.site.owner.name }}</p>" docs
     = (Throw "TypeError: Cannot read properties of undefined (reading 'name')", docs).
Proof. repeat split; run. Qed.


Lemma main_writes_compiled_view_site :
  (site_main 3 "/site/src/views/index.slm" docs).1 = Ok (VStr "/site/dist/index.html")
  /\ fs (site_main 3 "/site/src/views/index.slm" docs).2 !! "/site/dist/index.html"
     = Some (File "Patterns").
Proof.
  destruct (main_writes_compiled_view "/site" "src" "dist" "views" site_config site_platform
              site_engine site_marked site_beautify false 3 "/index" "Patterns" []
              docs (site_compile_slm (site_include 3) "/site/src/views/index.slm"
                      None docs).2
              ltac:(run) ltac:(run) ltac:(run) ltac:(run)
              ltac:(intros es; vm_compute; discriminate))
    as (Hvalue & Hfile & _).
  split; [exact Hvalue | exact Hfile].
Defined.

Lemma run_watch_builds_nothing_site :
  fs (site_run true 5 docs).2 = fs docs
  /\ (site_run true 5 docs).1 = Ok (Watching ["index.slm"] "/site/src/views").
Proof.
  destruct (run_watch_builds_nothing "/site" "src" "dist" "views" site_config site_platform
              site_engine site_marked site_beautify false true 5 docs eq_refl)
    as (Hdisk & _ & Hvalue).
  split; [exact Hdisk|]. rewrite Hvalue. run.
Defined.

(** * The PostCSS command (bin/postcss.js) *)

Module Postcss.

(** An entry of [config/sass]: where the bundle of a Sass module is. *)
Record style : Type := Style {
  outDir : string;
  outFile : string
}.

(** What processing gives back: [result.css] and [result.opts.to]. *)
Record result : Type := Result {
  result_css : string;
  result_to : string
}.

Section Command.

(** [postcss(config.plugins).process(css, {from, to})], given the css, [from]
    and [to]: a result, or a thrown failure. *)
Variable process : string -> string -> string -> outcome result.
(** [resolve('config/sass')] *)
Variable modules : list style.

(** [main(style)]: the read is outside the [try].  The report names
    [outDir + outFile], put together without a separator. *)
Definition main (s : style) : M unit :=
  let bundle := Path.join [outDir s; outFile s] in
  css ← readFileSync bundle;
  try_catch
    (r ← lift (process css bundle bundle);
     writeFileSync (result_to r) (VStr (result_css r));;
     log (LogDescribe bundle (outDir s +:+ outFile s)))
    (fun err => log (LogError "PostCSS" err)).

(** [run(styles = modules)] *)
Definition run (styles : option (list style)) : M unit :=
  let styles := default modules styles in
  try_catch
    (for_each (fun _ s => main s) tt styles)
    (fun err => log (LogError "PostCSS" err)).

(** X19.  A bundle that cannot be read stops the batch: the read in [main] is
    not guarded, so when the bundle of a style is missing (or is a directory)
    the error reaches [run], which reports it and ends; the styles listed
    after it are not processed. *)
Theorem batch_stops_at_unreadable_bundle (before after : list style) (s : style)
    (w w1 : world) :
  for_each (fun _ s => main s) tt before w = (Ok tt, w1) ->
  (forall css, fs w1 !! Path.join [outDir s; outFile s] <> Some (File css)) ->
  exists err,
    run (Some (before ++ s :: after)%list) w
    = (Ok tt, World (fs w1) (heap w1) (console w1 ++ [LogError "PostCSS" err])%list).
Proof.
  intros Hbefore Hbundle. unfold run. cbv zeta. cbn [default]. unfold id, try_catch.
  rewrite for_each_app_run. unfold mbind at 1. unfold M_bind. rewrite Hbefore.
  cbn [for_each]. unfold mbind at 1. unfold M_bind.
  unfold main at 1. unfold mbind at 1. unfold M_bind, readFileSync.
  destruct (fs w1 !! Path.join [outDir s; outFile s]) as [[css|entries]|] eqn:Hf;
    [by destruct (Hbundle css)|..]; by eexists.
Qed.

(** X20.  A failure of the processing itself is kept inside [main]: it is
    reported, the bundle is left as it was, and [run] goes on with the styles
    that follow. *)
Theorem processing_failure_is_contained (after : list style) (s : style)
    (css err : string) (w : world) :
  fs w !! Path.join [outDir s; outFile s] = Some (File css) ->
  process css (Path.join [outDir s; outFile s]) (Path.join [outDir s; outFile s])
  = Throw err ->
  let w' := World (fs w) (heap w) (console w ++ [LogError "PostCSS" err])%list in
  main s w = (Ok tt, w')
  /\ run (Some (s :: after)) w = run (Some after) w'.
Proof.
  intros Hf Hprocess w'.
  assert (main s w = (Ok tt, w')) as Hmain.
  { unfold main, try_catch, mbind, M_bind, lift, readFileSync.
    rewrite Hf, Hprocess. done. }
  split; [done|]. unfold run. cbv zeta. cbn [default]. unfold id. cbn [for_each].
  unfold try_catch.
  unfold mbind at 1. unfold M_bind. by rewrite Hmain.
Qed.

(** X21.  Processing rewrites the bundle in place: when the bundle is read and
    processed and the result is to go where it came from, [main] leaves the
    processed css at the bundle's path, reports it, and changes no other file. *)
Theorem bundle_rewritten_in_place (s : style) (css : string) (r : result)
    (entries : list string) (w : world) :
  let bundle := Path.join [outDir s; outFile s] in
  fs w !! bundle = Some (File css) ->
  fs w !! Path.dirname bundle = Some (Dir entries) ->
  process css bundle bundle = Ok r ->
  result_to r = bundle ->
  let after := main s w in
  after.1 = Ok tt
  /\ fs after.2 !! bundle = Some (File (result_css r))
  /\ (forall p, p <> bundle -> p <> Path.dirname bundle -> fs after.2 !! p = fs w !! p)
  /\ console after.2
     = (console w ++ [LogDescribe bundle (outDir s +:+ outFile s)])%list.
Proof.
  intros bundle Hf Hdir Hprocess Hto after.
  assert (main s w
          = (Ok tt,
             World (<[bundle := File (result_css r)]>
                      (add_entry (Path.dirname bundle) (Path.basename1 bundle) (fs w)))
               (heap w)
               (console w ++ [LogDescribe bundle (outDir s +:+ outFile s)])%list))
    as Hmain.
  { unfold main. fold bundle. unfold try_catch, mbind, M_bind, lift, readFileSync.
    rewrite Hf, Hprocess, Hto. unfold writeFileSync. by rewrite Hf, Hdir. }
  subst after. rewrite Hmain. cbn [fst snd fs heap console].
  split; [done|]. split; [by rewrite lookup_insert_eq|]. split; [|done].
  intros p Hp Hpd. rewrite lookup_insert_ne by done. by apply add_entry_other.
Qed.

End Command.

End Postcss.

(** Two bundles, the first of them missing. *)
Definition styles_disk : gmap string node :=
  {[ "/site" := Dir ["dist"];
     "/site/dist" := Dir ["styles"];
     "/site/dist/styles" := Dir ["site.css"; "print.css"];
     "/site/dist/styles/site.css" := File "a{color:red}";
     "/site/dist/styles/print.css" := File "broken" ]}.

Definition styles_world : world := World styles_disk ∅ [].

(** A stand-in for the processor: it fails on the css [broken] and prefixes
    any other. *)
Definition prefixer (css from to : string) : outcome Postcss.result :=
  if String.eqb css "broken" then Throw "CssSyntaxError"
  else Ok (Postcss.Result ("/* prefixed */" +:+ css) to).

Lemma batch_stops_at_unreadable_bundle_site :
  exists err,
    Postcss.run prefixer []
      (Some [Postcss.Style "/site/dist/styles" "missing.css";
             Postcss.Style "/site/dist/styles" "site.css"]) styles_world
    = (Ok tt, World styles_disk ∅ [LogError "PostCSS" err]).
Proof.
  apply (Postcss.batch_stops_at_unreadable_bundle prefixer []
           [] [Postcss.Style "/site/dist/styles" "site.css"]
           (Postcss.Style "/site/dist/styles" "missing.css")
           styles_world styles_world eq_refl).
  intros css. vm_compute. discriminate.
Defined.

Lemma processing_failure_is_contained_site :
  fs (Postcss.run prefixer []
        (Some [Postcss.Style "/site/dist/styles" "print.css";
               Postcss.Style "/site/dist/styles" "site.css"]) styles_world).2
    !! "/site/dist/styles/site.css"
  = Some (File "/* prefixed */a{color:red}").
Proof.
  destruct (Postcss.processing_failure_is_contained prefixer []
              [Postcss.Style "/site/dist/styles" "site.css"]
              (Postcss.Style "/site/dist/styles" "print.css")
              "broken" "CssSyntaxError" styles_world ltac:(run) ltac:(run))
    as [_ ->].
  run.
Defined.

Lemma bundle_rewritten_in_place_site :
  fs (Postcss.main prefixer (Postcss.Style "/site/dist/styles" "site.css") styles_world).2
    !! "/site/dist/styles/site.css"
  = Some (File "/* prefixed */a{color:red}").
Proof.
  destruct (Postcss.bundle_rewritten_in_place prefixer
              (Postcss.Style "/site/dist/styles" "site.css") "a{color:red}"
              (Postcss.Result "/* prefixed */a{color:red}" "/site/dist/styles/site.css")
              ["site.css"; "print.css"] styles_world
              ltac:(run) ltac:(run) ltac:(run) ltac:(run))
    as (_ & Hfile & _).
  exact Hfile.
Defined.
